(** * The in-memory item store of the Fastify CRUD service (src/db.js)
      and the routes over it (src/routes/items.js)

    A shallow embedding of the [Database] class, of the JavaScript
    built-ins it calls ([parseInt], [Map], object spread) and of the route
    handlers, followed by the properties of the store and of the routes.

    Conventions of the embedding.
    - A JavaScript Number is an IEEE double; the numbers the store computes
      with are the id counter and the integers read by [parseInt].  Doubles
      represent integers exactly up to 2^53, a bound no run of the service
      reaches, so integers are embedded as [Z].
    - [new Date()] reads the wall clock.  Every reading is an input of the
      operation that takes it: [create] takes two readings, one per
      [new Date()] in its object literal, [update] takes one.
    - [new Date().toISOString()] renders an instant as a string; the
      rendering is injective, and [VTime t] stands for the rendering of the
      instant [t] (milliseconds since the epoch). *)

From stdpp Require Import gmap strings list fin_maps sorting.
From Stdlib Require Import ZArith Lia Ascii.

Local Open Scope Z_scope.

(** ** Values and objects *)

#[warnings="-register-all"]
Inductive value :=
| VUndefined
| VNull
| VBool (b : bool)
| VNum (n : Z)
| VStr (s : string)
| VTime (t : Z)
| VArr (elems : list value)
| VObj (fields : list (string * value)).

(** A plain object: own enumerable properties by name. *)
Abbreviation object := (gmap string value).

(** [o.k]: reading a property that is absent gives [undefined]. *)
Definition prop (o : object) (k : string) : value := default VUndefined (o !! k).

(** [{ ...target, ...source }]: the properties of [source] are written over
    those of [target]. *)
Definition spread (target source : object) : object := source ∪ target.

(** ** Numbers as [parseInt] returns them and as [Map] compares them

    [Map] compares keys with SameValueZero: [NaN] equals [NaN] and [-0]
    equals [+0], which is equality on this type. *)

Inductive number :=
| NaN
| Int (z : Z).

#[global] Instance number_eq_dec : EqDecision number.
Proof. solve_decision. Defined.

(** ** parseInt (ECMA-262, 19.2.5), radix argument absent *)

(** A string is a sequence of UTF-16 code units. *)
Abbreviation jsstring := (list N).

Definition utf16 (s : string) : jsstring := N_of_ascii <$> String.list_ascii_of_string s.

(** WhiteSpace and LineTerminator code points, as StrWhiteSpaceChar. *)
Definition is_white_space (c : N) : bool :=
  ((9 <=? c) && (c <=? 13) || (c =? 32) || (c =? 160) || (c =? 5760)
   || (8192 <=? c) && (c <=? 8202) || (c =? 8232) || (c =? 8233)
   || (c =? 8239) || (c =? 8287) || (c =? 12288) || (c =? 65279))%N.

Fixpoint trim_start (s : jsstring) : jsstring :=
  match s with
  | c :: r => if is_white_space c then trim_start r else s
  | [] => []
  end.

(** The value of a code unit as a digit: 0-9, then a-z and A-Z for 10-35. *)
Definition digit_value (c : N) : option Z :=
  if ((48 <=? c) && (c <=? 57))%N then Some (Z.of_N c - 48)
  else if ((97 <=? c) && (c <=? 122))%N then Some (Z.of_N c - 87)
  else if ((65 <=? c) && (c <=? 90))%N then Some (Z.of_N c - 55)
  else None.

Definition radix_digit (R : Z) (c : N) : option Z :=
  match digit_value c with
  | Some d => if d <? R then Some d else None
  | None => None
  end.

(** The digits of the longest prefix of [s] made of radix-[R] digits. *)
Fixpoint digits_prefix (R : Z) (s : jsstring) : list Z :=
  match s with
  | c :: r =>
      match radix_digit R c with
      | Some d => d :: digits_prefix R r
      | None => []
      end
  | [] => []
  end.

Definition math_int (R : Z) (ds : list Z) : Z :=
  foldl (fun acc d => acc * R + d) 0 ds.

(** An optional sign: [-] or [+]. *)
Definition strip_sign (s : jsstring) : Z * jsstring :=
  match s with
  | c :: r =>
      if (c =? 45)%N then (-1, r)
      else if (c =? 43)%N then (1, r)
      else (1, s)
  | [] => (1, s)
  end.

(** A leading [0x] or [0X] selects radix 16; the radix is 10 otherwise. *)
Definition strip_prefix (s : jsstring) : Z * jsstring :=
  match s with
  | c1 :: c2 :: r =>
      if ((c1 =? 48) && ((c2 =? 120) || (c2 =? 88)))%N then (16, r) else (10, s)
  | _ => (10, s)
  end.

Definition parseInt (input : jsstring) : number :=
  let '(sign, s) := strip_sign (trim_start input) in
  let '(R, s) := strip_prefix s in
  match digits_prefix R s with
  | [] => NaN
  | ds => Int (sign * math_int R ds)
  end.

(** ** Map: keys in insertion order, one entry per key *)

Abbreviation jsmap := (list (number * object)).

Fixpoint map_get (k : number) (m : jsmap) : option object :=
  match m with
  | [] => None
  | (k', v) :: r => if decide (k = k') then Some v else map_get k r
  end.

(** [set] on a key that is present replaces the value where the entry
    stands; a new key goes to the end. *)
Fixpoint map_set (k : number) (v : object) (m : jsmap) : jsmap :=
  match m with
  | [] => [(k, v)]
  | (k', v') :: r =>
      if decide (k = k') then (k, v) :: r else (k', v') :: map_set k v r
  end.

Definition map_has (k : number) (m : jsmap) : bool :=
  bool_decide (is_Some (map_get k m)).

Definition map_remove (k : number) (m : jsmap) : jsmap :=
  filter (fun e => e.1 ≠ k) m.

(** [Map.prototype.delete] returns whether the key was present. *)
Definition map_delete (k : number) (m : jsmap) : bool * jsmap :=
  (map_has k m, map_remove k m).

Definition map_values (m : jsmap) : list object := m.*2.

Definition map_keys (m : jsmap) : list number := m.*1.

(** ** class Database *)

Record Database := mkDatabase {
  items : jsmap;
  currentId : Z
}.

(** [constructor()] *)
Definition new_Database : Database :=
  {| items := []; currentId := 1 |}.

(** The object literal of [create]:
    [{ id, ...data, createdAt: new Date().toISOString(),
       updatedAt: new Date().toISOString() }];
    [c] and [u] are the readings of the two [new Date()]. *)
Definition new_item (id c u : Z) (data : object) : object :=
  <["updatedAt" := VTime u]>
    (<["createdAt" := VTime c]>
       (spread {["id" := VNum id]} data)).

(** [create(data)] *)
Definition create (c u : Z) (data : object) (db : Database) : object * Database :=
  let id := currentId db in
  let item := new_item id c u data in
  (item, {| items := map_set (Int id) item (items db); currentId := id + 1 |}).

(** [findAll()] *)
Definition findAll (db : Database) : list object := map_values (items db).

(** [findById(id)]; [None] is [undefined]. *)
Definition findById (id : jsstring) (db : Database) : option object :=
  map_get (parseInt id) (items db).

(** The object literal of [update]:
    [{ ...item, ...data, id: item.id, createdAt: item.createdAt,
       updatedAt: new Date().toISOString() }];
    [now] is the reading of [new Date()]. *)
Definition updated_item (now : Z) (item data : object) : object :=
  <["updatedAt" := VTime now]>
    (<["createdAt" := prop item "createdAt"]>
       (<["id" := prop item "id"]>
          (spread (spread ∅ item) data))).

(** [update(id, data)]; [None] is the [null] returned when nothing is stored
    for the id. *)
Definition update (now : Z) (id : jsstring) (data : object) (db : Database)
  : option object * Database :=
  match map_get (parseInt id) (items db) with
  | None => (None, db)
  | Some item =>
      let updated := updated_item now item data in
      (Some updated,
       {| items := map_set (parseInt id) updated (items db);
          currentId := currentId db |})
  end.

(** [delete(id)] *)
Definition delete (id : jsstring) (db : Database) : bool * Database :=
  let '(removed, m) := map_delete (parseInt id) (items db) in
  (removed, {| items := m; currentId := currentId db |}).

(** ** Runs of the store *)

Inductive op :=
| Create (c u : Z) (data : object)
| FindAll
| FindById (id : jsstring)
| Update (now : Z) (id : jsstring) (data : object)
| Delete (id : jsstring).

Inductive result :=
| Created (item : object)
| Listed (all : list object)
| Found (r : option object)
| Updated (r : option object)
| Deleted (removed : bool).

Definition step (o : op) (db : Database) : result * Database :=
  match o with
  | Create c u data => let '(item, db') := create c u data db in (Created item, db')
  | FindAll => (Listed (findAll db), db)
  | FindById id => (Found (findById id db), db)
  | Update now id data => let '(r, db') := update now id data db in (Updated r, db')
  | Delete id => let '(b, db') := delete id db in (Deleted b, db')
  end.

Fixpoint run (ops : list op) (db : Database) : list result * Database :=
  match ops with
  | [] => ([], db)
  | o :: rest =>
      let '(x, db') := step o db in
      let '(xs, db'') := run rest db' in
      (x :: xs, db'')
  end.

(** The store after a run, and what the run returned. *)
Definition final (ops : list op) : Database := (run ops new_Database).2.
Definition returned (ops : list op) : list result := (run ops new_Database).1.

(** The [id] property of each entity returned by a [create], in call order. *)
Definition created_ids (rs : list result) : list value :=
  omap (fun r => match r with Created item => Some (prop item "id") | _ => None end) rs.

(** The counter values allocated by the [create] calls, in call order. *)
Fixpoint allocated (ops : list op) (db : Database) : list Z :=
  match ops with
  | [] => []
  | o :: rest =>
      match o with
      | Create _ _ _ => currentId db :: allocated rest (step o db).2
      | _ => allocated rest (step o db).2
      end
  end.

Definition is_create (o : op) : bool :=
  match o with Create _ _ _ => true | _ => false end.

Definition is_removal (r : result) : bool :=
  match r with Deleted true => true | _ => false end.

(** The clock readings of a run, in the order they are taken. *)
Definition clock_of (o : op) : list Z :=
  match o with
  | Create c u _ => [c; u]
  | Update now _ _ => [now]
  | _ => []
  end.

Definition readings (ops : list op) : list Z := ops ≫= clock_of.

(** A clock that never goes back. *)
Definition monotone (ts : list Z) : Prop := StronglySorted Z.le ts.

(** ** Invariants of the reachable stores *)

(** The keys are counter values already allocated, in increasing order. *)
Definition keys_inv (db : Database) : Prop :=
  1 ≤ currentId db ∧
  ∃ ks : list Z,
    map_keys (items db) = Int <$> ks ∧
    StronglySorted Z.lt ks ∧
    Forall (fun k => 1 ≤ k < currentId db) ks.

(** An entity carries an [id] and two time stamps read from the clock;
    [R] lists the readings taken so far. *)
Definition stamped (R : list Z) (e : object) : Prop :=
  is_Some (e !! "id") ∧
  ∃ c u, e !! "createdAt" = Some (VTime c) ∧ e !! "updatedAt" = Some (VTime u) ∧
         c ∈ R ∧ u ∈ R.

Definition stamps_inv (R : list Z) (db : Database) : Prop :=
  Forall (fun e => stamped R e.2) (items db).

(** The keys that the protected fields of an entity live under. *)
Definition protected (k : string) : bool :=
  bool_decide (k = "id" ∨ k = "createdAt" ∨ k = "updatedAt").

(** ** Small tests *)

Definition payload (name : string) : object := {["name" := VStr name]}.

(** A request body that carries an [id] of its own. *)
Definition payload_with_id (n : Z) (name : string) : object :=
  <["id" := VNum n]> (payload name).

(** How many operations of a run are [create] calls, and how many of its
    results are a [delete] that removed something. *)
Definition creates (ops : list op) : nat := length (List.filter is_create ops).
Definition removals (rs : list result) : nat := length (List.filter is_removal rs).

(** ** Which inputs parseInt can read

    An input parses when, after leading white space and an optional sign,
    it starts with a decimal digit, or with [0x] or [0X] and then a
    hexadecimal digit; what follows the numeral does not matter. *)

Definition digit_in (R : Z) (c : N) : bool :=
  match radix_digit R c with Some _ => true | None => false end.

Definition starts_numeral (s : jsstring) : bool :=
  match s with
  | [] => false
  | c1 :: r =>
      match r with
      | c2 :: r' =>
          if ((c1 =? 48) && ((c2 =? 120) || (c2 =? 88)))%N
          then match r' with c3 :: _ => digit_in 16 c3 | [] => false end
          else digit_in 10 c1
      | [] => digit_in 10 c1
      end
  end.

Definition parsable (input : jsstring) : bool :=
  starts_numeral (strip_sign (trim_start input)).2.

(** Text that may follow a decimal numeral without changing how it reads:
    none, or text that does not start with a decimal digit. *)
Definition no_digit_ahead (rest : jsstring) : Prop :=
  match rest with [] => True | c :: _ => radix_digit 10 c = None end.

(** ** The decimal numeral of an id

    The id of an entity reaches a client as a JSON number, and comes back in
    the path of a request as its decimal numeral. *)

Fixpoint decimal_digits (fuel : nat) (n : Z) (acc : list Z) : list Z :=
  match fuel with
  | O => acc
  | S fuel' =>
      if n <? 10 then n :: acc
      else decimal_digits fuel' (n / 10) (n mod 10 :: acc)
  end.

Definition is_digit (d : Z) : Prop := 0 ≤ d < 10.

Definition digit_code (d : Z) : N := Z.to_N (d + 48).

Definition decimal (n : Z) : jsstring :=
  digit_code <$> decimal_digits (S (Z.to_nat n)) n [].

(** ** The routes of the items (src/routes/items.js)

    Each handler is the body of the [async] function registered for the
    route; the body of a [POST] or [PUT] request reaches it after the schema
    of the route has accepted it.  [code] is the argument of [reply.code],
    [None] when the handler leaves the status to the framework. *)

Inductive response :=
| SendItems (all : list object) (count : nat)
| SendItem (item : object)
| SendError (error : string)
| SendNothing.

Record reply := mkReply {
  code : option Z;
  sent : response
}.

Definition not_found : reply := mkReply (Some 404) (SendError "Item not found").

(** [GET /items] *)
Definition get_items (db : Database) : reply * Database :=
  let all := findAll db in
  (mkReply None (SendItems all (length all)), db).

(** [GET /items/:id] *)
Definition get_item (id : jsstring) (db : Database) : reply * Database :=
  match findById id db with
  | None => (not_found, db)
  | Some item => (mkReply None (SendItem item), db)
  end.

(** [POST /items] *)
Definition post_item (c u : Z) (body : object) (db : Database) : reply * Database :=
  let '(item, db') := create c u body db in
  (mkReply (Some 201) (SendItem item), db').

(** [PUT /items/:id] *)
Definition put_item (now : Z) (id : jsstring) (body : object) (db : Database)
  : reply * Database :=
  let '(item, db') := update now id body db in
  match item with
  | None => (not_found, db')
  | Some item => (mkReply None (SendItem item), db')
  end.

(** [DELETE /items/:id] *)
Definition delete_item (id : jsstring) (db : Database) : reply * Database :=
  let '(deleted, db') := delete id db in
  if deleted then (mkReply (Some 204) SendNothing, db') else (not_found, db').

Inductive request :=
| GET_items
| GET_item (id : jsstring)
| POST_items (c u : Z) (body : object)
| PUT_item (now : Z) (id : jsstring) (body : object)
| DELETE_item (id : jsstring).

Definition serve (r : request) (db : Database) : reply * Database :=
  match r with
  | GET_items => get_items db
  | GET_item id => get_item id db
  | POST_items c u body => post_item c u body db
  | PUT_item now id body => put_item now id body db
  | DELETE_item id => delete_item id db
  end.

Fixpoint serve_all (rs : list request) (db : Database) : list reply * Database :=
  match rs with
  | [] => ([], db)
  | r :: rest =>
      let '(x, db') := serve r db in
      let '(xs, db'') := serve_all rest db' in
      (x :: xs, db'')
  end.

(** The schemas of the routes, on the body as the handler receives it:
    [POST] requires a [name], and [name] and [description] are strings
    where they are present. *)
Definition string_or_absent (o : object) (k : string) : bool :=
  match o !! k with
  | None | Some (VStr _) => true
  | _ => false
  end.

Definition put_schema (body : object) : bool :=
  string_or_absent body "name" && string_or_absent body "description".

Definition post_schema (body : object) : bool :=
  match body !! "name" with Some _ => put_schema body | None => false end.

(** A request that reaches its handler. *)
Definition accepted (r : request) : bool :=
  match r with
  | POST_items _ _ body => post_schema body
  | PUT_item _ _ body => put_schema body
  | _ => true
  end.

(** The store operation behind a request, and the reply made of its
    result. *)
Definition op_of (r : request) : op :=
  match r with
  | GET_items => FindAll
  | GET_item id => FindById id
  | POST_items c u body => Create c u body
  | PUT_item now id body => Update now id body
  | DELETE_item id => Delete id
  end.

Definition reply_of (x : result) : reply :=
  match x with
  | Listed all => mkReply None (SendItems all (length all))
  | Found (Some item) | Updated (Some item) => mkReply None (SendItem item)
  | Found None | Updated None | Deleted false => not_found
  | Created item => mkReply (Some 201) (SendItem item)
  | Deleted true => mkReply (Some 204) SendNothing
  end.

(** How many replies of a list carry the status [n]. *)
Definition with_code (n : Z) (xs : list reply) : nat :=
  length (List.filter (fun x => bool_decide (code x = Some n)) xs).

(** ** More invariants of the reachable stores *)

(** Every entity carries the key it is stored under as its [id]. *)
Definition ids_inv (db : Database) : Prop :=
  Forall (fun e => ∃ n, e.1 = Int n ∧ e.2 !! "id" = Some (VNum n)) (items db).

(** Every entity was created no later than it was last updated. *)
Definition ordered (R : list Z) (e : object) : Prop :=
  ∃ c u, e !! "createdAt" = Some (VTime c) ∧ e !! "updatedAt" = Some (VTime u) ∧
         c ∈ R ∧ u ∈ R ∧ c ≤ u.

Definition ordered_inv (R : list Z) (db : Database) : Prop :=
  Forall (fun e => ordered R e.2) (items db).

(** No request body of the run has an [id] of its own. *)
Definition plain_payloads (ops : list op) : Prop :=
  Forall (fun o => match o with Create _ _ data => data !! "id" = None | _ => True end) ops.

(** An [update] or a [delete] whose id input parses to the key [k]. *)
Definition touches (k : number) (o : op) : bool :=
  match o with
  | Update _ id _ | Delete id => bool_decide (parseInt id = k)
  | _ => false
  end.

(** A key that no [create] to come can be given. *)
Definition below_counter (k : number) (db : Database) : Prop :=
  match k with NaN => True | Int n => n < currentId db end.

Example parseInt_42 : parseInt (utf16 "  42px") = Int 42.
Proof. reflexivity. Qed.

Example parseInt_hex : parseInt (utf16 "-0x1F") = Int (-31).
Proof. reflexivity. Qed.

Example parseInt_abc : parseInt (utf16 "abc") = NaN.
Proof. reflexivity. Qed.

Example parseInt_empty : parseInt [] = NaN.
Proof. reflexivity. Qed.

(** [parseInt] reads the longest numeric prefix, so input with trailing
    text parses as that prefix. *)
Example parseInt_prefix : parseInt (utf16 "1abc") = Int 1.
Proof. reflexivity. Qed.

(** Two creates, an update of the first, its deletion: the ids are 1 and 2,
    the first entity is gone and [findAll()] is left with the second. *)
Example scenario :
  let ops := [Create 100 100 (payload "A"); Create 101 101 (payload "B");
              Update 102 (utf16 "1") (payload "A2"); Delete (utf16 "1");
              FindById (utf16 "1"); FindAll] in
  returned ops =
    [Created (new_item 1 100 100 (payload "A"));
     Created (new_item 2 101 101 (payload "B"));
     Updated (Some (updated_item 102 (new_item 1 100 100 (payload "A")) (payload "A2")));
     Deleted true;
     Found None;
     Listed [new_item 2 101 101 (payload "B")]] ∧
  created_ids (returned ops) = [VNum 1; VNum 2] ∧
  updated_item 102 (new_item 1 100 100 (payload "A")) (payload "A2") !! "name"
    = Some (VStr "A2").
Proof. split; [reflexivity|]. split; vm_compute; reflexivity. Qed.

(** ** Map lemmas *)

Section map_lemmas.
Implicit Types (k : number) (v : object) (m : jsmap).

Lemma map_get_set_eq k v m : map_get k (map_set k v m) = Some v.
Proof.
  induction m as [|[k' v'] m IH]; simpl.
  - by rewrite decide_True.
  - destruct (decide (k = k')) as [->|Hne]; simpl.
    + by rewrite decide_True.
    + by rewrite decide_False.
Qed.

Lemma map_get_set_ne k k' v m :
  k ≠ k' → map_get k' (map_set k v m) = map_get k' m.
Proof.
  intros Hne. induction m as [|[k0 v0] m IH]; simpl.
  - by rewrite decide_False.
  - destruct (decide (k = k0)) as [->|Hk]; simpl.
    + by rewrite !decide_False.
    + destruct (decide (k' = k0)); done.
Qed.

Lemma map_get_None k m : map_get k m = None ↔ k ∉ map_keys m.
Proof.
  unfold map_keys. induction m as [|[k' v'] m IH]; simpl.
  - split; [intros _; apply not_elem_of_nil | done].
  - rewrite not_elem_of_cons. destruct (decide (k = k')) as [->|Hne].
    + split; [done | intros [? _]; done].
    + rewrite IH. tauto.
Qed.

Lemma map_get_Some_elem k v m : map_get k m = Some v → (k, v) ∈ m.
Proof.
  induction m as [|[k' v'] m IH]; simpl; [done|].
  destruct (decide (k = k')) as [->|Hne].
  - intros [= ->]. apply list_elem_of_here.
  - intros H. apply list_elem_of_further. auto.
Qed.

Lemma map_elem_get k v m : NoDup (map_keys m) → (k, v) ∈ m → map_get k m = Some v.
Proof.
  unfold map_keys. induction m as [|[k' v'] m IH]; simpl.
  - intros _ H. by apply elem_of_nil in H.
  - intros Hnd H. apply NoDup_cons in Hnd as [Hk' Hnd].
    apply elem_of_cons in H as [[= -> ->]|H].
    + by rewrite decide_True.
    + destruct (decide (k = k')) as [->|Hne]; [|by apply IH].
      exfalso. apply Hk'. apply list_elem_of_fmap. by exists (k', v).
Qed.

(** A key that is absent goes to the end. *)
Lemma map_set_fresh k v m : map_get k m = None → map_set k v m = m ++ [(k, v)].
Proof.
  induction m as [|[k' v'] m IH]; simpl; [done|].
  destruct (decide (k = k')); [done|]. intros H. by rewrite IH.
Qed.

(** A key that is present keeps its place. *)
Lemma map_set_present k v v0 m :
  map_get k m = Some v0 →
  ∃ l1 l2, m = l1 ++ (k, v0) :: l2 ∧ map_set k v m = l1 ++ (k, v) :: l2.
Proof.
  induction m as [|[k' v'] m IH]; simpl; [done|].
  destruct (decide (k = k')) as [->|Hne].
  - intros [= ->]. by exists [], m.
  - intros H. destruct (IH H) as (l1 & l2 & -> & ->).
    by exists ((k', v') :: l1), l2.
Qed.

Lemma map_keys_set_present k v m :
  is_Some (map_get k m) → map_keys (map_set k v m) = map_keys m.
Proof.
  intros [v0 H]. destruct (map_set_present k v v0 m H) as (l1 & l2 & -> & ->).
  unfold map_keys. by rewrite !fmap_app.
Qed.

Lemma map_get_remove_eq k m : map_get k (map_remove k m) = None.
Proof.
  apply map_get_None. unfold map_keys, map_remove.
  intros H. apply list_elem_of_fmap in H as ([k' v'] & -> & H).
  apply list_elem_of_filter in H as [H _]. by apply H.
Qed.

Lemma map_get_remove_ne k k' m :
  k ≠ k' → map_get k' (map_remove k m) = map_get k' m.
Proof.
  intros Hne. unfold map_remove. induction m as [|[k0 v0] m IH]; [done|].
  rewrite filter_cons. simpl. destruct (decide (k0 ≠ k)) as [Hk|Hk]; simpl.
  - by rewrite IH.
  - apply dec_stable in Hk as ->. by rewrite decide_False.
Qed.

Lemma map_remove_absent k m : map_get k m = None → map_remove k m = m.
Proof.
  unfold map_remove. induction m as [|[k' v'] m IH]; [done|]. simpl.
  rewrite filter_cons. simpl. destruct (decide (k = k')) as [->|Hne]; [done|].
  intros H. rewrite decide_True by done. by rewrite IH.
Qed.

Lemma map_remove_present k v m :
  NoDup (map_keys m) → map_get k m = Some v →
  S (length (map_remove k m)) = length m.
Proof.
  unfold map_keys, map_remove. induction m as [|[k' v'] m IH]; [done|]. simpl.
  intros Hnd. apply NoDup_cons in Hnd as [Hk' Hnd]. rewrite filter_cons. simpl.
  destruct (decide (k = k')) as [->|Hne].
  - intros _. rewrite decide_False by (intros H; by apply H).
    f_equal. fold (map_remove k' m). rewrite map_remove_absent; [done|].
    by apply map_get_None.
  - intros H. rewrite decide_True by done. simpl. f_equal. by apply IH.
Qed.

(** Removing an entry keeps the others in their order. *)
Lemma map_keys_remove k m :
  map_keys (map_remove k m) = filter (fun k' => k' ≠ k) (map_keys m).
Proof.
  unfold map_keys, map_remove. induction m as [|[k' v'] m IH]; [done|].
  rewrite fmap_cons, !filter_cons. simpl.
  destruct (decide (k' ≠ k)); simpl; by rewrite <- IH.
Qed.

Lemma map_has_true k m : map_has k m = true ↔ is_Some (map_get k m).
Proof. unfold map_has. apply bool_decide_eq_true. Qed.

Lemma map_has_false k m : map_has k m = false ↔ map_get k m = None.
Proof.
  unfold map_has. rewrite bool_decide_eq_false. by rewrite eq_None_not_Some.
Qed.
End map_lemmas.

(** ** The invariants hold along every run *)

Lemma StronglySorted_filter_lt (P : Z → Prop) `{!∀ x, Decision (P x)} (l : list Z) :
  StronglySorted Z.lt l → StronglySorted Z.lt (filter P l).
Proof.
  induction 1 as [|x l Hs IH Hall]; [constructor|].
  rewrite filter_cons. destruct (decide (P x)); [|done].
  constructor; [done|]. apply Forall_forall. intros y Hy.
  apply list_elem_of_filter in Hy as [_ Hy]. by eapply Forall_forall in Hall.
Qed.

Lemma filter_Int_keys (k : number) (ks : list Z) :
  ∃ ks', filter (fun k' => k' ≠ k) (Int <$> ks) = Int <$> ks' ∧
         ks' = filter (fun z => Int z ≠ k) ks.
Proof.
  eexists. split; [|done]. induction ks as [|z ks IH]; [done|].
  rewrite fmap_cons, !filter_cons. destruct (decide (Int z ≠ k)); simpl; by rewrite IH.
Qed.

Lemma keys_inv_NoDup db : keys_inv db → NoDup (map_keys (items db)).
Proof.
  intros (_ & ks & -> & Hs & _). apply NoDup_fmap_2; [by intros ?? [=]|].
  induction Hs as [|x l Hs IH Hall]; constructor; [|done].
  intros Hx. eapply Forall_forall in Hall; [|done]. lia.
Qed.

Lemma keys_inv_no_NaN db : keys_inv db → map_get NaN (items db) = None.
Proof.
  intros (_ & ks & Hk & _). apply map_get_None. rewrite Hk.
  intros H. apply list_elem_of_fmap in H as (? & Heq & _). discriminate Heq.
Qed.

Lemma keys_inv_counter_fresh db : keys_inv db → map_get (Int (currentId db)) (items db) = None.
Proof.
  intros (_ & ks & Hk & _ & Hall). apply map_get_None. rewrite Hk.
  intros H. apply list_elem_of_fmap in H as (z & [= <-] & Hz).
  eapply Forall_forall in Hall; [|done]. lia.
Qed.

Lemma keys_inv_new : keys_inv new_Database.
Proof. split; [done|]. exists []. repeat split; constructor. Qed.

Lemma keys_inv_create c u data db : keys_inv db → keys_inv (create c u data db).2.
Proof.
  intros Hinv. pose proof (keys_inv_counter_fresh db Hinv) as Hfresh.
  destruct Hinv as (H1 & ks & Hk & Hs & Hall). split; simpl; [lia|].
  exists (ks ++ [currentId db]). rewrite map_set_fresh by done.
  unfold map_keys in *. rewrite !fmap_app, Hk. split; [done|]. split.
  - apply StronglySorted_app. split_and!; [|done|repeat constructor].
    intros x y Hx Hy. apply list_elem_of_singleton in Hy as ->.
    eapply Forall_forall in Hall; [|done]. lia.
  - apply Forall_app. split.
    + eapply Forall_impl; [done|]. simpl. lia.
    + repeat constructor; lia.
Qed.

Lemma keys_inv_update now id data db : keys_inv db → keys_inv (update now id data db).2.
Proof.
  intros Hinv. unfold update. destruct (map_get _ _) as [item|] eqn:Hget; [|done].
  destruct Hinv as (H1 & ks & Hk & Hs & Hall). split; [done|]. exists ks. simpl.
  by rewrite map_keys_set_present.
Qed.

Lemma keys_inv_delete id db : keys_inv db → keys_inv (delete id db).2.
Proof.
  intros (H1 & ks & Hk & Hs & Hall). split; [done|]. simpl.
  destruct (filter_Int_keys (parseInt id) ks) as (ks' & Hf & ->).
  eexists. rewrite map_keys_remove, Hk. split; [done|]. split.
  - by apply StronglySorted_filter_lt.
  - apply Forall_forall. intros z Hz. apply list_elem_of_filter in Hz as [_ Hz].
    by eapply Forall_forall in Hall.
Qed.

Lemma keys_inv_step o db : keys_inv db → keys_inv (step o db).2.
Proof.
  intros Hinv. destruct o as [c u data| |id|now id data|id]; simpl; try done.
  - by apply keys_inv_create.
  - pose proof (keys_inv_update now id data db Hinv). by destruct (update _ _ _ _).
  - by apply keys_inv_delete.
Qed.

Lemma run_cons o ops db :
  run (o :: ops) db = ((step o db).1 :: (run ops (step o db).2).1, (run ops (step o db).2).2).
Proof. simpl. destruct (step o db), (run ops _). done. Qed.

Lemma keys_inv_run ops db : keys_inv db → keys_inv (run ops db).2.
Proof.
  revert db. induction ops as [|o ops IH]; intros db Hinv; [done|].
  rewrite run_cons. simpl. apply IH. by apply keys_inv_step.
Qed.

Lemma keys_inv_final ops : keys_inv (final ops).
Proof. apply keys_inv_run, keys_inv_new. Qed.

(** ** The fields of the entities built by [create] and [update] *)

Lemma create_item c u data db :
  (create c u data db).1 = new_item (currentId db) c u data.
Proof. done. Qed.

Lemma new_item_updatedAt id c u data : new_item id c u data !! "updatedAt" = Some (VTime u).
Proof. unfold new_item. by rewrite lookup_insert_eq. Qed.

Lemma new_item_createdAt id c u data : new_item id c u data !! "createdAt" = Some (VTime c).
Proof.
  unfold new_item. rewrite lookup_insert_ne by done. by rewrite lookup_insert_eq.
Qed.

Lemma new_item_id id c u data :
  new_item id c u data !! "id" = Some (default (VNum id) (data !! "id")).
Proof.
  unfold new_item, spread. rewrite !lookup_insert_ne by done.
  rewrite lookup_union. destruct (data !! "id") as [v|]; simpl.
  - by rewrite lookup_singleton_eq.
  - by rewrite lookup_singleton_eq.
Qed.

Lemma unprotected k :
  protected k = false → k ≠ "id" ∧ k ≠ "createdAt" ∧ k ≠ "updatedAt".
Proof. unfold protected. rewrite bool_decide_eq_false. tauto. Qed.

Lemma new_item_other id c u data k :
  protected k = false → new_item id c u data !! k = data !! k.
Proof.
  intros (H1 & H2 & H3)%unprotected.
  unfold new_item, spread. rewrite !lookup_insert_ne by congruence.
  rewrite lookup_union, lookup_singleton_ne by congruence. by destruct (data !! k).
Qed.

Lemma update_found now id data db item :
  map_get (parseInt id) (items db) = Some item →
  update now id data db =
    (Some (updated_item now item data),
     mkDatabase (map_set (parseInt id) (updated_item now item data) (items db)) (currentId db)).
Proof. intros H. unfold update. by rewrite H. Qed.

Lemma update_missing now id data db :
  map_get (parseInt id) (items db) = None → update now id data db = (None, db).
Proof. intros H. unfold update. by rewrite H. Qed.

Lemma updated_item_updatedAt now item data :
  updated_item now item data !! "updatedAt" = Some (VTime now).
Proof. unfold updated_item. by rewrite lookup_insert_eq. Qed.

Lemma updated_item_createdAt now item data :
  updated_item now item data !! "createdAt" = Some (prop item "createdAt").
Proof.
  unfold updated_item. rewrite lookup_insert_ne by done. by rewrite lookup_insert_eq.
Qed.

Lemma updated_item_id now item data :
  updated_item now item data !! "id" = Some (prop item "id").
Proof.
  unfold updated_item. rewrite !lookup_insert_ne by done. by rewrite lookup_insert_eq.
Qed.

Lemma updated_item_other now item data k :
  protected k = false →
  updated_item now item data !! k = spread item data !! k.
Proof.
  intros (H1 & H2 & H3)%unprotected.
  unfold updated_item, spread. rewrite !lookup_insert_ne by congruence.
  by rewrite (right_id_L ∅ (∪)).
Qed.

Lemma spread_lookup (target source : object) k :
  spread target source !! k =
    match source !! k with Some v => Some v | None => target !! k end.
Proof. unfold spread. rewrite lookup_union. by destruct (source !! k), (target !! k). Qed.

Lemma prop_Some (o : object) k v : o !! k = Some v → prop o k = v.
Proof. unfold prop. by intros ->. Qed.

(** ** Time stamps along a run *)

Lemma stamped_mono R R' e : R ⊆ R' → stamped R e → stamped R' e.
Proof.
  intros Hsub (Hid & c & u & Hc & Hu & HcR & HuR).
  split; [done|]. exists c, u. split_and!; auto.
Qed.

Lemma stamps_inv_mono R R' db : R ⊆ R' → stamps_inv R db → stamps_inv R' db.
Proof.
  intros Hsub Hinv. unfold stamps_inv in *. eapply Forall_impl; [done|].
  intros e. by apply stamped_mono.
Qed.

Lemma Forall_map_set (P : number * object → Prop) k v (m : jsmap) :
  Forall P m → P (k, v) → Forall P (map_set k v m).
Proof.
  intros Hm Hv. induction Hm as [|[k' v'] m Hp Hm IH]; simpl.
  - by constructor.
  - destruct (decide (k = k')); constructor; auto.
Qed.

Lemma stamps_inv_get R db k item :
  stamps_inv R db → map_get k (items db) = Some item → stamped R item.
Proof.
  intros Hinv Hget. apply map_get_Some_elem in Hget.
  unfold stamps_inv in Hinv. by eapply Forall_forall in Hinv; [|done].
Qed.

Lemma stamps_inv_step R o db :
  stamps_inv R db → stamps_inv (R ++ clock_of o) (step o db).2.
Proof.
  intros Hinv.
  assert (stamps_inv (R ++ clock_of o) db) as Hinv'.
  { eapply stamps_inv_mono; [|done]. set_solver. }
  destruct o as [c u data| |id|now id data|id]; simpl in *; try done.
  - apply Forall_map_set; [done|]. simpl.
    change (stamped (R ++ [c; u]) (new_item (currentId db) c u data)).
    split; [rewrite new_item_id; eauto|]. exists c, u.
    rewrite new_item_createdAt, new_item_updatedAt. set_solver.
  - destruct (map_get (parseInt id) (items db)) as [item|] eqn:Hget.
    + rewrite (update_found _ _ _ _ _ Hget). simpl.
      apply Forall_map_set; [done|]. simpl.
      destruct (stamps_inv_get _ _ _ _ Hinv' Hget) as (Hid & c & u & Hc & Hu & HcR & HuR).
      split; [rewrite updated_item_id; eauto|]. exists c, now.
      rewrite updated_item_createdAt, updated_item_updatedAt, (prop_Some _ _ _ Hc).
      split_and!; [done|done|done|].
      apply elem_of_app. right. apply list_elem_of_here.
    + by rewrite update_missing.
  - unfold stamps_inv, map_remove. simpl.
    apply Forall_forall. intros e He. apply list_elem_of_filter in He as [_ He].
    unfold stamps_inv in Hinv'. by eapply Forall_forall in Hinv'.
Qed.

Lemma readings_cons o ops : readings (o :: ops) = clock_of o ++ readings ops.
Proof. done. Qed.

Lemma stamps_inv_run R ops db :
  stamps_inv R db → stamps_inv (R ++ readings ops) (run ops db).2.
Proof.
  revert R db. induction ops as [|o ops IH]; intros R db Hinv.
  - simpl. eapply stamps_inv_mono; [|done]. set_solver.
  - rewrite run_cons, readings_cons, (assoc_L (++)). simpl.
    apply IH. by apply stamps_inv_step.
Qed.

Lemma stamps_inv_final ops : stamps_inv (readings ops) (final ops).
Proof. apply (stamps_inv_run [] ops new_Database). constructor. Qed.

(** ** Identity: the counter and the [id] field *)

(** Only [create] moves the counter, by one. *)
Lemma step_currentId o db :
  currentId (step o db).2 = currentId db + (if is_create o then 1 else 0).
Proof.
  destruct o as [c u data| |id|now id data|id]; simpl; try lia.
  unfold update. destruct (map_get _ _); simpl; lia.
Qed.

(** The counter hands out consecutive values. *)
Lemma allocated_seqZ ops db :
  allocated ops db = seqZ (currentId db) (Z.of_nat (creates ops)).
Proof.
  revert db. induction ops as [|o ops IH]; intros db; [done|].
  cbn [allocated]. rewrite IH, step_currentId. unfold creates. cbn [List.filter].
  destruct o as [c u data| |id|now id data|id]; cbn [is_create];
    rewrite ?Z.add_0_r; try done.
  cbn [length]. rewrite Nat2Z.inj_succ, (seqZ_cons (currentId db)) by lia.
  do 2 f_equal; lia.
Qed.

(** From the empty store the allocated values are 1, 2, 3, ..., whatever
    else happens between the [create] calls. *)
Lemma allocated_from_one ops :
  allocated ops new_Database = seqZ 1 (Z.of_nat (creates ops)).
Proof. apply allocated_seqZ. Qed.

Lemma allocated_increasing ops db : StronglySorted Z.lt (allocated ops db).
Proof.
  rewrite allocated_seqZ. generalize (currentId db), (creates ops).
  intros z n. revert z. induction n as [|n IH]; intros z; [constructor|].
  rewrite Nat2Z.inj_succ, seqZ_cons by lia. constructor.
  - replace (Z.pred (Z.succ (Z.of_nat n))) with (Z.of_nat n) by lia. apply IH.
  - apply Forall_forall. intros x Hx. apply elem_of_seqZ in Hx. lia.
Qed.

(** When no request body has an [id] of its own, the ids returned are the
    allocated ones. *)
Lemma created_ids_allocated ops db :
  Forall (fun o => match o with Create _ _ data => data !! "id" = None | _ => True end) ops →
  created_ids (run ops db).1 = VNum <$> allocated ops db.
Proof.
  revert db. induction ops as [|o ops IH]; intros db Hall; [done|].
  apply Forall_cons in Hall as [Ho Hall]. rewrite run_cons. unfold created_ids in *.
  destruct o as [c u data| |id|now id data|id]; cbn [step allocated fst snd omap].
  - simpl. rewrite (IH _ Hall). f_equal. unfold prop. by rewrite new_item_id, Ho.
  - by apply IH.
  - by apply IH.
  - specialize (IH (update now id data db).2 Hall).
    by destruct (update now id data db) as [r db'].
  - by apply IH.
Qed.

(** C1, at the failing input: two [create] calls whose request bodies both
    carry [id: 7] return entities whose ids are 7 and 7, a repeat, although
    the counter allocated 1 and 2 for them. *)
Theorem create_ids_repeat :
  let ops := [Create 0 0 (payload_with_id 7 "a"); Create 0 0 (payload_with_id 7 "b")] in
  created_ids (returned ops) = [VNum 7; VNum 7] ∧
  allocated ops new_Database = [1; 2].
Proof. split; [vm_compute; reflexivity | reflexivity]. Qed.

(** C2, at the failing input: [create({id: 99, name: "A"})] on the empty
    store returns and stores an entity whose [id] is the 99 of the payload,
    not the 1 allocated from the counter; the entity sits under key 1. *)
Theorem create_id_overridden :
  let '(item, db) := create 0 0 (payload_with_id 99 "A") new_Database in
  item !! "id" = Some (VNum 99) ∧
  findById (utf16 "1") db = Some item ∧
  findById (utf16 "99") db = None ∧
  currentId db = 2.
Proof. vm_compute. repeat split; reflexivity. Qed.

(** ** Time stamps *)

(** C3, as stated, fails: the two stamps come from two readings of the
    clock, and when the clock ticks between them they differ. *)
Lemma stamps_may_differ_at_create :
  ¬ (∀ c u data db,
       (create c u data db).1 !! "createdAt" = (create c u data db).1 !! "updatedAt").
Proof.
  intros H. specialize (H 1000 1001 (payload "A") new_Database).
  simpl in H. rewrite new_item_createdAt, new_item_updatedAt in H. discriminate H.
Qed.

(** C3, amended: for every payload the entity returned by [create] has
    [createdAt] set to the first reading of the clock and [updatedAt] to the
    second, whatever the payload holds under these names; the two stamps are
    equal exactly when the two readings are the same instant. *)
Theorem create_stamps c u data db :
  let item := (create c u data db).1 in
  item !! "createdAt" = Some (VTime c) ∧
  item !! "updatedAt" = Some (VTime u) ∧
  (item !! "createdAt" = item !! "updatedAt" ↔ c = u).
Proof.
  simpl. rewrite new_item_createdAt, new_item_updatedAt.
  split_and!; [done|done|]. split; [by intros [= ->] | by intros ->].
Qed.

(** ** update *)

Lemma monotone_last ts now t : monotone (ts ++ [now]) → t ∈ ts → t ≤ now.
Proof.
  intros Hm Ht. eapply StronglySorted_app_1_elem_of; [done..|apply list_elem_of_here].
Qed.

(** C4, as stated, fails: [update] stamps [updatedAt] with what the wall
    clock reads and compares it with nothing, so a clock that has gone back
    gives an [updatedAt] before the previous one. *)
Lemma update_may_set_updatedAt_back :
  ¬ (∀ ops now id data item updated,
       findById id (final ops) = Some item →
       (update now id data (final ops)).1 = Some updated →
       ∃ t t', item !! "updatedAt" = Some (VTime t) ∧
               updated !! "updatedAt" = Some (VTime t') ∧ t ≤ t').
Proof.
  intros H.
  destruct (H [Create 10 10 (payload "A")] 5 (utf16 "1") ∅
              (new_item 1 10 10 (payload "A"))
              (updated_item 5 (new_item 1 10 10 (payload "A")) ∅)
              eq_refl eq_refl) as (t & t' & Ht & Ht' & Hle).
  rewrite new_item_updatedAt in Ht. rewrite updated_item_updatedAt in Ht'.
  injection Ht as <-. injection Ht' as <-. lia.
Qed.

(** C4, amended: after any run, [update(id, payload)] on a stored entity
    returns and stores an entity with the [id] and the [createdAt] of the
    stored one, whatever the payload holds under these names, and with
    [updatedAt] set to the reading of the clock.  The previous [updatedAt]
    is an earlier reading of the run, so the new one is at or after it
    whenever the clock has not gone back. *)
Theorem update_protects_id_createdAt ops now id data item :
  findById id (final ops) = Some item →
  ∃ updated db',
    update now id data (final ops) = (Some updated, db') ∧
    findById id db' = Some updated ∧
    updated !! "id" = item !! "id" ∧
    updated !! "createdAt" = item !! "createdAt" ∧
    updated !! "updatedAt" = Some (VTime now) ∧
    ∃ t, item !! "updatedAt" = Some (VTime t) ∧ t ∈ readings ops ∧
         (monotone (readings ops ++ [now]) → t ≤ now).
Proof.
  intros Hget. unfold findById in Hget.
  destruct (stamps_inv_get _ _ _ _ (stamps_inv_final ops) Hget)
    as ([vid Hid] & c & u & Hc & Hu & _ & HuR).
  eexists _, _. split; [by apply update_found|]. split_and!.
  - unfold findById. simpl. apply map_get_set_eq.
  - by rewrite updated_item_id, Hid, (prop_Some _ _ _ Hid).
  - by rewrite updated_item_createdAt, Hc, (prop_Some _ _ _ Hc).
  - apply updated_item_updatedAt.
  - exists u. split_and!; [done..|]. intros Hmono. by eapply monotone_last.
Qed.

Lemma update_protects_id_createdAt_witness :
  let ops := [Create 10 10 (payload "A"); Create 12 13 (payload "B")] in
  let data := <["createdAt" := VTime 0]> (payload_with_id 5 "A2") in
  let item := new_item 1 10 10 (payload "A") in
  findById (utf16 "1") (final ops) = Some item ∧
  ∃ updated db',
    update 20 (utf16 "1") data (final ops) = (Some updated, db') ∧
    findById (utf16 "1") db' = Some updated ∧
    updated !! "id" = item !! "id" ∧
    updated !! "createdAt" = item !! "createdAt" ∧
    updated !! "updatedAt" = Some (VTime 20) ∧
    ∃ t, item !! "updatedAt" = Some (VTime t) ∧ t ∈ readings ops ∧
         (monotone (readings ops ++ [20]) → t ≤ 20).
Proof.
  intros ops data item.
  assert (findById (utf16 "1") (final ops) = Some item) as Hget by reflexivity.
  split; [exact Hget|].
  exact (update_protects_id_createdAt ops 20 (utf16 "1") data item Hget).
Defined.

(** C5, as stated, fails: a payload field named [id] does not replace the
    stored [id], so the result is not the plain merge of the stored entity
    with the payload. *)
Lemma update_not_plain_merge :
  ¬ (∀ ops now id data item updated,
       findById id (final ops) = Some item →
       (update now id data (final ops)).1 = Some updated →
       ∀ k, updated !! k = match data !! k with Some v => Some v | None => item !! k end).
Proof.
  intros H.
  specialize (H [Create 0 0 (payload "A")] 5 (utf16 "1") {["id" := VNum 9]}
                (new_item 1 0 0 (payload "A"))
                (updated_item 5 (new_item 1 0 0 (payload "A")) {["id" := VNum 9]})
                eq_refl eq_refl "id").
  rewrite updated_item_id in H. vm_compute in H. discriminate H.
Qed.

(** C5, amended: for every stored entity and every payload, the entity
    resulting from [update(id, payload)] is the field-by-field merge of the
    stored entity with the payload on every field other than [id],
    [createdAt] and [updatedAt]: there a payload field replaces the stored
    field of the same name, and a field the payload does not name keeps its
    value.  [id] and [createdAt] keep the stored values and [updatedAt] is
    the reading of the clock. *)
Theorem update_merges_fields now id data db item :
  findById id db = Some item →
  ∃ updated db',
    update now id data db = (Some updated, db') ∧
    (∀ k, protected k = false →
          updated !! k = match data !! k with Some v => Some v | None => item !! k end) ∧
    updated !! "id" = Some (prop item "id") ∧
    updated !! "createdAt" = Some (prop item "createdAt") ∧
    updated !! "updatedAt" = Some (VTime now).
Proof.
  intros Hget. eexists _, _. split; [by apply update_found|]. split_and!.
  - intros k Hk. by rewrite updated_item_other, spread_lookup.
  - apply updated_item_id.
  - apply updated_item_createdAt.
  - apply updated_item_updatedAt.
Qed.

Lemma update_merges_fields_witness :
  let data0 := <["description" := VStr "d"]> (payload "A") in
  let db := final [Create 0 0 data0] in
  let item := new_item 1 0 0 data0 in
  let data := payload "A2" in
  findById (utf16 "1") db = Some item ∧
  ∃ updated db',
    update 5 (utf16 "1") data db = (Some updated, db') ∧
    (∀ k, protected k = false →
          updated !! k = match data !! k with Some v => Some v | None => item !! k end) ∧
    updated !! "id" = Some (prop item "id") ∧
    updated !! "createdAt" = Some (prop item "createdAt") ∧
    updated !! "updatedAt" = Some (VTime 5).
Proof.
  intros data0 db item data.
  assert (findById (utf16 "1") db = Some item) as Hget by reflexivity.
  split; [exact Hget|].
  exact (update_merges_fields 5 (utf16 "1") data db item Hget).
Defined.

(** ** findById *)

(** Input whose first code unit after white space and sign is not a decimal
    digit does not parse, and neither does input that ends there. *)
Lemma parseInt_not_numeric (input : jsstring) :
  match (strip_sign (trim_start input)).2 with
  | [] => True
  | c :: _ => radix_digit 10 c = None
  end →
  parseInt input = NaN.
Proof.
  unfold parseInt. destruct (strip_sign _) as [sign s]. simpl.
  destruct s as [|c1 r]; [done|]. intros Hc. unfold strip_prefix.
  destruct r as [|c2 r]; [by simpl; rewrite Hc|].
  destruct (c1 =? 48)%N eqn:H48.
  - apply N.eqb_eq in H48 as ->. discriminate Hc.
  - simpl. by rewrite Hc.
Qed.

(** ** delete *)

(** C7: [delete(id)] returns [true] exactly when an entity was stored for
    the id, and then that entity is gone; it never touches the counter or
    the entity of another id, and when nothing was stored it returns
    [false] and the store is as before. *)
Theorem delete_reports_removal (id : jsstring) (db : Database) :
  let '(removed, db') := delete id db in
  (removed = true ↔ is_Some (findById id db)) ∧
  findById id db' = None ∧
  currentId db' = currentId db ∧
  (∀ k, k ≠ parseInt id → map_get k (items db') = map_get k (items db)) ∧
  (removed = false → findById id db = None ∧ db' = db).
Proof.
  unfold delete, map_delete, findById. simpl. split_and!.
  - apply map_has_true.
  - apply map_get_remove_eq.
  - done.
  - intros k Hk. by apply map_get_remove_ne.
  - intros Hf%map_has_false. split; [done|]. rewrite map_remove_absent by done.
    by destruct db.
Qed.

(** C8: in every store, for every id input, [findById(id)] after
    [delete(id)] gives the not-found value. *)
Theorem delete_then_findById (id : jsstring) (db : Database) :
  findById id (delete id db).2 = None.
Proof. unfold delete, map_delete, findById. simpl. apply map_get_remove_eq. Qed.

(** ** findAll *)

Lemma length_map_keys (m : jsmap) : length (map_keys m) = length m.
Proof. unfold map_keys. apply length_fmap. Qed.

Lemma step_size o db :
  keys_inv db →
  (length (items (step o db).2) + (if is_removal (step o db).1 then 1 else 0) =
   length (items db) + (if is_create o then 1 else 0))%nat.
Proof.
  intros Hinv. destruct o as [c u data| |id|now id data|id]; simpl; try lia.
  - rewrite map_set_fresh by by apply keys_inv_counter_fresh.
    rewrite length_app. simpl. lia.
  - destruct (map_get (parseInt id) (items db)) as [item|] eqn:Hget.
    + rewrite (update_found _ _ _ _ _ Hget). simpl.
      rewrite <- (length_map_keys (map_set _ _ _)), map_keys_set_present by eauto.
      rewrite length_map_keys. lia.
    + rewrite update_missing by done. simpl. lia.
  - destruct (map_has (parseInt id) (items db)) eqn:Hhas.
    + apply map_has_true in Hhas as [item Hget].
      pose proof (map_remove_present _ _ _ (keys_inv_NoDup _ Hinv) Hget). lia.
    + apply map_has_false in Hhas. rewrite map_remove_absent by done. lia.
Qed.

Lemma run_size ops db :
  keys_inv db →
  (length (items (run ops db).2) + removals (run ops db).1 =
   length (items db) + creates ops)%nat.
Proof.
  revert db. induction ops as [|o ops IH]; intros db Hinv.
  - unfold removals, creates. simpl. lia.
  - rewrite run_cons. cbn [fst snd].
    pose proof (step_size o db Hinv) as Hstep.
    specialize (IH _ (keys_inv_step o db Hinv)).
    unfold removals, creates in *. cbn [List.filter].
    destruct (is_removal (step o db).1), (is_create o); simpl in *; lia.
Qed.

(** C9: after any run from the empty store with N [create] calls and M
    [delete] calls that removed an entity, M is at most N and [findAll()]
    returns exactly N - M entities. *)
Theorem findAll_count ops :
  (removals (returned ops) ≤ creates ops)%nat ∧
  length (findAll (final ops)) = (creates ops - removals (returned ops))%nat.
Proof.
  pose proof (run_size ops new_Database keys_inv_new) as H.
  unfold findAll, map_values, final, returned. rewrite length_fmap.
  simpl in H. lia.
Qed.

(** The keys of the store are taken from the allocated ids, in the order of
    their allocation. *)
Lemma keys_sublist_allocated ops db :
  keys_inv db →
  map_keys (items (run ops db).2) `sublist_of`
    map_keys (items db) ++ (Int <$> allocated ops db).
Proof.
  revert db. induction ops as [|o ops IH]; intros db Hinv.
  - simpl. by rewrite (right_id_L [] (++)).
  - rewrite run_cons. cbn [snd allocated].
    specialize (IH _ (keys_inv_step o db Hinv)). etrans; [exact IH|].
    destruct o as [c u data| |id|now id data|id]; try done.
    + simpl. rewrite map_set_fresh by by apply keys_inv_counter_fresh.
      unfold map_keys. by rewrite fmap_app, <- (assoc_L (++)).
    + apply sublist_app; [|done]. unfold step.
      destruct (map_get (parseInt id) (items db)) as [item|] eqn:Hget.
      * rewrite (update_found _ _ _ _ _ Hget). simpl.
        by rewrite map_keys_set_present by eauto.
      * by rewrite update_missing.
    + apply sublist_app; [|done]. simpl. rewrite map_keys_remove.
      apply sublist_filter.
Qed.

Lemma sublist_Int (ks l : list Z) :
  Int <$> ks `sublist_of` Int <$> l → ks `sublist_of` l.
Proof.
  revert ks. induction l as [|x l IH]; intros ks H.
  - apply sublist_nil_r, fmap_nil_inv in H as ->. constructor.
  - rewrite fmap_cons in H. apply sublist_cons_r in H as [H|(l' & Heq & H)].
    + apply sublist_cons. auto.
    + destruct ks as [|k ks]; [done|]. rewrite fmap_cons in Heq.
      injection Heq as -> <-. apply sublist_skip. auto.
Qed.

(** C10: after any run, the stored entities stand in the order in which
    their ids were allocated; a [create] puts its entity at the end, and an
    [update] puts the new entity where the old one stood. *)
Theorem findAll_insertion_order ops :
  let db := final ops in
  (∃ ks, map_keys (items db) = Int <$> ks ∧ StronglySorted Z.lt ks ∧
         ks `sublist_of` allocated ops new_Database) ∧
  (∀ c u data,
     findAll (create c u data db).2 = findAll db ++ [(create c u data db).1]) ∧
  (∀ now id data,
     match update now id data db with
     | (Some updated, db') =>
         ∃ before old after,
           findById id db = Some old ∧
           findAll db = before ++ old :: after ∧
           findAll db' = before ++ updated :: after ∧
           map_keys (items db') = map_keys (items db)
     | (None, db') => db' = db
     end).
Proof.
  intros db. pose proof (keys_inv_final ops) as Hinv. fold db in Hinv. split_and!.
  - destruct Hinv as (_ & ks & Hk & Hs & _). exists ks. split_and!; [done..|].
    pose proof (keys_sublist_allocated ops new_Database keys_inv_new) as Hsub.
    fold (final ops) in Hsub. fold db in Hsub. simpl in Hsub. rewrite Hk in Hsub.
    by apply sublist_Int.
  - intros c u data. unfold findAll, map_values. simpl.
    rewrite map_set_fresh by by apply keys_inv_counter_fresh. by rewrite fmap_app.
  - intros now id data.
    destruct (map_get (parseInt id) (items db)) as [item|] eqn:Hget.
    + rewrite (update_found _ _ _ _ _ Hget).
      destruct (map_set_present _ (updated_item now item data) _ _ Hget)
        as (l1 & l2 & Hm & Hm').
      exists (l1.*2), item, (l2.*2). unfold findAll, map_values, findById. simpl.
      rewrite Hm' at 1. rewrite Hm at 2. rewrite !fmap_app. simpl.
      split_and!; [done..|]. apply map_keys_set_present. eauto.
    + by rewrite update_missing.
Qed.

(** ** Reading back a decimal numeral *)

Lemma is_digit_cases d :
  is_digit d → d = 0 ∨ d = 1 ∨ d = 2 ∨ d = 3 ∨ d = 4 ∨ d = 5 ∨ d = 6 ∨ d = 7 ∨ d = 8 ∨ d = 9.
Proof. unfold is_digit. lia. Qed.

Lemma digit_code_spec d :
  is_digit d →
  radix_digit 10 (digit_code d) = Some d ∧
  is_white_space (digit_code d) = false ∧
  strip_sign (digit_code d :: []) = (1, [digit_code d]) ∧
  (digit_code d =? 120)%N = false ∧ (digit_code d =? 88)%N = false ∧
  ((digit_code d =? 48)%N = true → d = 0).
Proof.
  intros Hd. apply is_digit_cases in Hd.
  repeat (destruct Hd as [->|Hd]); try subst d; repeat split; try reflexivity;
    intros H; discriminate H.
Qed.

Lemma strip_sign_digit d s :
  is_digit d → strip_sign (digit_code d :: s) = (1, digit_code d :: s).
Proof.
  intros Hd. apply is_digit_cases in Hd.
  repeat (destruct Hd as [->|Hd]); try subst d; reflexivity.
Qed.

Lemma digits_prefix_codes ds rest :
  Forall is_digit ds →
  digits_prefix 10 ((digit_code <$> ds) ++ rest) = ds ++ digits_prefix 10 rest.
Proof.
  induction 1 as [|d ds Hd _ IH]; [done|].
  rewrite fmap_cons. cbn [app digits_prefix].
  destruct (digit_code_spec d Hd) as (-> & _). by rewrite IH.
Qed.

Lemma math_int_foldl acc ds :
  foldl (fun a d => a * 10 + d) acc ds =
  acc * 10 ^ Z.of_nat (length ds) + math_int 10 ds.
Proof.
  unfold math_int. revert acc. induction ds as [|d ds IH]; intros acc.
  - simpl. lia.
  - cbn [foldl length]. rewrite IH, (IH (0 * 10 + d)).
    rewrite Nat2Z.inj_succ, Z.pow_succ_r by lia. lia.
Qed.

Lemma decimal_digits_spec fuel n acc :
  0 ≤ n ≤ Z.of_nat fuel → Forall is_digit acc →
  Forall is_digit (decimal_digits fuel n acc) ∧
  math_int 10 (decimal_digits fuel n acc) =
    n * 10 ^ Z.of_nat (length acc) + math_int 10 acc ∧
  (length acc ≤ length (decimal_digits fuel n acc))%nat.
Proof.
  revert n acc. induction fuel as [|fuel IH]; intros n acc Hn Hacc.
  - simpl. split; [done|]. split; [|done]. replace n with 0 by lia. lia.
  - cbn [decimal_digits]. destruct (n <? 10) eqn:Hlt.
    + apply Z.ltb_lt in Hlt. split; [constructor; [split; lia|done]|].
      split; [|simpl; lia]. unfold math_int at 1. cbn [foldl].
      rewrite math_int_foldl. lia.
    + apply Z.ltb_ge in Hlt.
      destruct (IH (n / 10) (n mod 10 :: acc)) as (Hds & Hval & Hlen).
      * split; [apply Z.div_pos; lia|].
        assert (n / 10 < n) by (apply Z.div_lt; lia). lia.
      * constructor; [|done]. unfold is_digit. apply Z.mod_pos_bound. lia.
      * split; [done|]. split; [|simpl in Hlen; lia].
        rewrite Hval. unfold math_int at 1. cbn [foldl length].
        rewrite math_int_foldl, Nat2Z.inj_succ, Z.pow_succ_r by lia.
        pose proof (Z.div_mod n 10 ltac:(lia)). nia.
Qed.

Lemma decimal_spec n :
  0 ≤ n →
  ∃ d ds, decimal n = digit_code <$> (d :: ds) ∧ Forall is_digit (d :: ds) ∧
          math_int 10 (d :: ds) = n.
Proof.
  intros Hn. unfold decimal. set (fuel := Z.to_nat n).
  assert (0 ≤ n ≤ Z.of_nat (S fuel)) as Hfuel by (unfold fuel; lia).
  cbn [decimal_digits]. destruct (n <? 10) eqn:Hlt.
  - apply Z.ltb_lt in Hlt. exists n, []. split; [done|]. split.
    + repeat constructor; lia.
    + unfold math_int. simpl. lia.
  - apply Z.ltb_ge in Hlt.
    destruct (decimal_digits_spec fuel (n / 10) [n mod 10]) as (Hds & Hval & Hlen).
    + split; [apply Z.div_pos; lia|].
      assert (n / 10 < n) by (apply Z.div_lt; lia). lia.
    + repeat constructor; apply Z.mod_pos_bound; lia.
    + destruct (decimal_digits fuel (n / 10) [n mod 10]) as [|d ds] eqn:Heq.
      { simpl in Hlen. lia. }
      exists d, ds. split; [done|]. split; [done|]. rewrite Hval.
      unfold math_int. simpl.
      pose proof (Z.div_mod n 10 ltac:(lia)). lia.
Qed.

(** [parseInt] reads a decimal numeral back, whatever text follows it, as
    long as the text does not go on with a digit; after the numeral of 0 it
    must not go on with [x] or [X] either, which would announce radix 16. *)
Lemma parseInt_decimal_then n rest :
  0 ≤ n →
  match rest with
  | [] => True
  | c :: _ => radix_digit 10 c = None ∧ (n = 0 → (c =? 120)%N = false ∧ (c =? 88)%N = false)
  end →
  parseInt (decimal n ++ rest) = Int n.
Proof.
  intros Hn Hrest. destruct (decimal_spec n Hn) as (d & ds & -> & Hall & Hval).
  pose proof Hall as Hall'. apply Forall_cons in Hall' as [Hd Hds].
  destruct (digit_code_spec d Hd) as (Hrd & Hws & _ & _ & _ & H48).
  assert (digits_prefix 10 rest = []) as Hnil.
  { destruct rest as [|c rest]; [done|]. simpl. by destruct Hrest as [-> _]. }
  unfold parseInt. rewrite fmap_cons. cbn [app trim_start]. rewrite Hws.
  rewrite strip_sign_digit by done.
  assert (strip_prefix (digit_code d :: (digit_code <$> ds) ++ rest)
          = (10, digit_code d :: (digit_code <$> ds) ++ rest)) as ->.
  { unfold strip_prefix. destruct ds as [|d2 ds]; simpl.
    - destruct rest as [|c rest]; [done|].
      destruct (digit_code d =? 48)%N eqn:E; [|done].
      assert (n = 0) as ->.
      { rewrite <- Hval, (H48 eq_refl). reflexivity. }
      destruct Hrest as [_ Hx]. destruct (Hx eq_refl) as [-> ->]. done.
    - apply Forall_cons in Hds as [Hd2 _].
      destruct (digit_code_spec d2 Hd2) as (_ & _ & _ & -> & -> & _).
      by rewrite andb_false_r. }
  change (digit_code d :: (digit_code <$> ds) ++ rest)
    with ((digit_code <$> d :: ds) ++ rest).
  rewrite digits_prefix_codes, Hnil, (right_id_L [] (++)) by done.
  by rewrite Hval, Z.mul_1_l.
Qed.

Lemma parseInt_decimal n : 0 ≤ n → parseInt (decimal n) = Int n.
Proof.
  intros Hn. rewrite <- (right_id_L [] (++) (decimal n)).
  by apply parseInt_decimal_then.
Qed.

Lemma parseInt_white_space w s :
  is_white_space w = true → parseInt (w :: s) = parseInt s.
Proof. intros Hw. unfold parseInt. simpl. by rewrite Hw. Qed.

Lemma parseInt_decimal_lax n rest :
  1 ≤ n → no_digit_ahead rest → parseInt (decimal n ++ rest) = Int n.
Proof.
  intros Hn Hrest. apply parseInt_decimal_then; [lia|].
  destruct rest as [|c rest]; [done|]. split; [done|lia].
Qed.

Lemma digit_in_spec R c :
  digit_in R c = false ↔ radix_digit R c = None.
Proof. unfold digit_in. by destruct (radix_digit R c). Qed.

Lemma parseInt_NaN input : parseInt input = NaN ↔ parsable input = false.
Proof.
  unfold parseInt, parsable. destruct (strip_sign (trim_start input)) as [sign s].
  cbn [snd]. unfold starts_numeral, strip_prefix.
  destruct s as [|c1 [|c2 r]].
  - done.
  - unfold digit_in. simpl. by destruct (radix_digit 10 c1).
  - destruct ((c1 =? 48) && ((c2 =? 120) || (c2 =? 88)))%N.
    + destruct r as [|c3 r]; [done|]. unfold digit_in. simpl.
      by destruct (radix_digit 16 c3).
    + unfold digit_in. simpl. by destruct (radix_digit 10 c1).
Qed.

Lemma parseInt_Int input :
  parsable input = true → ∃ n, parseInt input = Int n.
Proof.
  intros Hp. destruct (parseInt input) as [|n] eqn:Heq; [|by exists n].
  apply parseInt_NaN in Heq. congruence.
Qed.

(** ** create, update and delete, one against the other *)

Lemma map_set_set k v1 v2 (m : jsmap) :
  map_set k v2 (map_set k v1 m) = map_set k v2 m.
Proof.
  induction m as [|[k' v'] m IH]; simpl.
  - by rewrite decide_True.
  - destruct (decide (k = k')) as [->|Hne]; simpl.
    + by rewrite decide_True.
    + by rewrite decide_False, IH.
Qed.

Lemma final_counter_pos ops : 1 ≤ currentId (final ops).
Proof. by destruct (keys_inv_final ops) as [H _]. Qed.

Lemma keys_inv_below k e db :
  keys_inv db → map_get k (items db) = Some e → below_counter k db.
Proof.
  intros (_ & ks & Hk & _ & Hall) Hget.
  assert (k ∈ map_keys (items db)) as Hin.
  { apply map_get_Some_elem in Hget. unfold map_keys.
    apply list_elem_of_fmap. by exists (k, e). }
  rewrite Hk in Hin. apply list_elem_of_fmap in Hin as (n & -> & Hn).
  eapply Forall_forall in Hall; [|done]. simpl. lia.
Qed.

Lemma create_findById_decimal ops c u data :
  findById (decimal (currentId (final ops))) (create c u data (final ops)).2
  = Some (create c u data (final ops)).1.
Proof.
  pose proof (final_counter_pos ops) as Hpos.
  unfold findById. rewrite parseInt_decimal by lia. simpl. apply map_get_set_eq.
Qed.

Lemma final_keys_range ops k e :
  (k, e) ∈ items (final ops) → ∃ n, k = Int n ∧ 1 ≤ n < currentId (final ops).
Proof.
  intros Hin. destruct (keys_inv_final ops) as (_ & ks & Hk & _ & Hall).
  assert (k ∈ map_keys (items (final ops))) as Hkin.
  { unfold map_keys. apply list_elem_of_fmap. by exists (k, e). }
  rewrite Hk in Hkin. apply list_elem_of_fmap in Hkin as (n & -> & Hn).
  exists n. split; [done|]. by eapply Forall_forall in Hall.
Qed.

(** X1: after any run, the entity that [create] returns is the one
    [findById] gives for the decimal numeral of the allocated counter value,
    and [findAll] lists it. *)
Theorem create_then_findById ops c u data :
  let db := final ops in
  findById (decimal (currentId db)) (create c u data db).2 = Some (create c u data db).1 ∧
  (create c u data db).1 ∈ findAll (create c u data db).2.
Proof.
  intros db. pose proof (create_findById_decimal ops c u data) as Hfind.
  fold db in Hfind. split; [done|]. unfold findById in Hfind. apply map_get_Some_elem in Hfind.
  unfold findAll, map_values. apply list_elem_of_fmap. by eexists (_, _).
Qed.

(** X2: after any run, [create] leaves every stored entity as it is: an id
    input that found an entity finds the same one afterwards, an id input
    that does not parse to the allocated counter value gets the same answer
    as before, and [findAll] is one entity longer. *)
Theorem create_keeps_entities ops c u data (id : jsstring) :
  let db := final ops in
  let db' := (create c u data db).2 in
  (is_Some (findById id db) → findById id db' = findById id db) ∧
  (parseInt id ≠ Int (currentId db) → findById id db' = findById id db) ∧
  length (findAll db') = S (length (findAll db)).
Proof.
  intros db db'. pose proof (keys_inv_final ops) as Hinv. fold db in Hinv.
  assert (parseInt id ≠ Int (currentId db) → findById id db' = findById id db) as Hne.
  { intros Hk. unfold findById, db'. simpl. by apply map_get_set_ne. }
  split_and!; [|done|].
  - intros [e He]. apply Hne. intros Hk.
    apply (keys_inv_below _ _ _ Hinv) in He. rewrite Hk in He. simpl in He. lia.
  - unfold findAll, map_values, db'. simpl.
    rewrite map_set_fresh by by apply keys_inv_counter_fresh.
    rewrite !length_fmap, length_app. simpl. lia.
Qed.

(** X3: in every store, [update] neither adds nor removes an entity nor
    moves the counter: the keys stay as they are, in their order, and the
    entity of every other key is untouched.  It returns [null] exactly when
    [findById] finds nothing for the id, and then the store is as before. *)
Theorem update_frame now (id : jsstring) data db :
  let db' := (update now id data db).2 in
  currentId db' = currentId db ∧
  map_keys (items db') = map_keys (items db) ∧
  (∀ k, k ≠ parseInt id → map_get k (items db') = map_get k (items db)) ∧
  ((update now id data db).1 = None ↔ findById id db = None) ∧
  (findById id db = None → db' = db).
Proof.
  unfold findById. destruct (map_get (parseInt id) (items db)) as [item|] eqn:Hget.
  - rewrite (update_found _ _ _ _ _ Hget). simpl. split_and!; try done.
    + apply map_keys_set_present. eauto.
    + intros k Hk. apply map_get_set_ne. congruence.
  - rewrite (update_missing _ _ _ _ Hget). simpl. by split_and!.
Qed.

Lemma updated_item_twice n1 n2 item d1 d2 :
  updated_item n2 (updated_item n1 item d1) d2 = updated_item n2 item (spread d1 d2).
Proof.
  apply map_eq. intros k. destruct (protected k) eqn:Hk.
  - unfold protected in Hk. apply bool_decide_eq_true in Hk as [->|[->| ->]].
    + rewrite !updated_item_id. f_equal. unfold prop. by rewrite updated_item_id.
    + rewrite !updated_item_createdAt. f_equal. unfold prop.
      by rewrite updated_item_createdAt.
    + by rewrite !updated_item_updatedAt.
  - rewrite !updated_item_other, !spread_lookup, updated_item_other by done.
    rewrite spread_lookup. by destruct (d2 !! k), (d1 !! k).
Qed.

(** X4: in every store, two [update] calls on one id amount to the second
    call made with the two payloads merged, the fields of the second over
    those of the first: the same entity is returned and the same store is
    left. *)
Theorem update_update n1 n2 (id : jsstring) d1 d2 db :
  update n2 id d2 (update n1 id d1 db).2 = update n2 id (spread d1 d2) db.
Proof.
  destruct (map_get (parseInt id) (items db)) as [item|] eqn:Hget.
  - rewrite (update_found n1 _ _ _ _ Hget), (update_found n2 _ (spread d1 d2) _ _ Hget).
    simpl. erewrite update_found; [|simpl; apply map_get_set_eq]. simpl.
    by rewrite map_set_set, updated_item_twice.
  - rewrite (update_missing n1 _ _ _ Hget). simpl.
    by rewrite !update_missing.
Qed.

Lemma delete_again (id : jsstring) db :
  delete id (delete id db).2 = (false, (delete id db).2).
Proof.
  unfold delete, map_delete. simpl. f_equal.
  - apply map_has_false, map_get_remove_eq.
  - f_equal. apply map_remove_absent, map_get_remove_eq.
Qed.

(** X5: in every store, a second [delete] of the same id returns [false]
    and changes nothing, whatever the first one did; an [update] of that id
    after the first [delete] returns [null] and changes nothing either. *)
Theorem delete_delete now (id : jsstring) data db :
  delete id (delete id db).2 = (false, (delete id db).2) ∧
  update now id data (delete id db).2 = (None, (delete id db).2).
Proof.
  split; [apply delete_again|]. apply update_missing.
  unfold delete, map_delete. simpl. apply map_get_remove_eq.
Qed.

Lemma run_currentId ops db :
  currentId (run ops db).2 = currentId db + Z.of_nat (creates ops).
Proof.
  revert db. induction ops as [|o ops IH]; intros db.
  - unfold creates. simpl. lia.
  - rewrite run_cons. cbn [snd]. rewrite IH, step_currentId.
    unfold creates. cbn [List.filter]. destruct (is_create o); simpl length; lia.
Qed.

(** X6: after any run from the empty store the counter is one more than the
    number of [create] calls, whatever was updated or deleted, and every key
    of the store is an integer from 1 up to, and not including, the counter. *)
Theorem counter_counts_creates ops :
  currentId (final ops) = 1 + Z.of_nat (creates ops) ∧
  ∀ k e, (k, e) ∈ items (final ops) →
         ∃ n, k = Int n ∧ 1 ≤ n < currentId (final ops).
Proof.
  split.
  - unfold final. by rewrite run_currentId.
  - apply final_keys_range.
Qed.

(** ** What an entity keeps for as long as it is stored *)

Lemma ids_inv_step o db :
  plain_payloads [o] → ids_inv db → ids_inv (step o db).2.
Proof.
  intros Hplain%Forall_inv Hinv. unfold ids_inv in *.
  destruct o as [c u data| |id|now id data|id]; simpl; try done.
  - apply Forall_map_set; [done|]. exists (currentId db). split; [done|].
    simpl. by rewrite new_item_id, Hplain.
  - destruct (map_get (parseInt id) (items db)) as [item|] eqn:Hget.
    + rewrite (update_found _ _ _ _ _ Hget). simpl. apply Forall_map_set; [done|].
      apply map_get_Some_elem in Hget.
      eapply Forall_forall in Hinv as (n & Hn & Hid); [|done]. simpl in *.
      exists n. split; [done|]. by rewrite updated_item_id, (prop_Some _ _ _ Hid).
    + by rewrite update_missing.
  - unfold map_remove. apply Forall_forall. intros e He.
    apply list_elem_of_filter in He as [_ He]. by eapply Forall_forall in Hinv.
Qed.

Lemma ids_inv_run ops db :
  plain_payloads ops → ids_inv db → ids_inv (run ops db).2.
Proof.
  revert db. induction ops as [|o ops IH]; intros db Hplain Hinv; [done|].
  apply Forall_cons in Hplain as [Ho Hplain]. rewrite run_cons. cbn [snd].
  apply IH; [done|]. apply ids_inv_step; [|done]. by constructor.
Qed.

(** X7: after a run from the empty store in which no [create] payload has
    an [id] of its own, the entity that [findById] gives for an id input
    carries as its [id] the integer the input parses to. *)
Theorem stored_id_is_key ops (id : jsstring) e :
  plain_payloads ops →
  findById id (final ops) = Some e →
  ∃ n, parseInt id = Int n ∧ e !! "id" = Some (VNum n).
Proof.
  intros Hplain Hget. unfold findById in Hget. apply map_get_Some_elem in Hget.
  assert (ids_inv (final ops)) as Hinv by (apply ids_inv_run; [done|constructor]).
  unfold ids_inv in Hinv. by eapply Forall_forall in Hinv; [|done].
Qed.

Lemma stored_id_is_key_witness :
  let ops := [Create 1 1 (payload "A"); Create 2 2 (payload "B");
              Update 3 (utf16 "2") (payload_with_id 7 "B2"); Delete (utf16 "1")] in
  let e := updated_item 3 (new_item 2 2 2 (payload "B")) (payload_with_id 7 "B2") in
  plain_payloads ops ∧
  findById (utf16 " 2nd") (final ops) = Some e ∧
  ∃ n, parseInt (utf16 " 2nd") = Int n ∧ e !! "id" = Some (VNum n).
Proof.
  intros ops e.
  assert (plain_payloads ops) as Hplain by (repeat constructor).
  assert (findById (utf16 " 2nd") (final ops) = Some e) as Hget by reflexivity.
  split; [exact Hplain|]. split; [exact Hget|].
  exact (stored_id_is_key ops (utf16 " 2nd") e Hplain Hget).
Defined.

Lemma step_below k o db : below_counter k db → below_counter k (step o db).2.
Proof.
  destruct k as [|n]; [done|]. simpl. rewrite step_currentId.
  destruct (is_create o); lia.
Qed.

Lemma step_absent k o db :
  below_counter k db → map_get k (items db) = None →
  map_get k (items (step o db).2) = None.
Proof.
  intros Hb Hnone. destruct o as [c u data| |id|now id data|id]; simpl; try done.
  - rewrite map_get_set_ne by (intros <-; simpl in Hb; lia). done.
  - destruct (map_get (parseInt id) (items db)) as [item|] eqn:Hget.
    + rewrite (update_found _ _ _ _ _ Hget). simpl.
      rewrite map_get_set_ne by congruence. done.
    + by rewrite update_missing.
  - destruct (decide (parseInt id = k)) as [<-|Hne].
    + apply map_get_remove_eq.
    + by rewrite map_get_remove_ne.
Qed.

Lemma run_absent k ops db :
  below_counter k db → map_get k (items db) = None →
  map_get k (items (run ops db).2) = None.
Proof.
  revert db. induction ops as [|o ops IH]; intros db Hb Hnone; [done|].
  rewrite run_cons. cbn [snd]. apply IH; [by apply step_below|by apply step_absent].
Qed.

Lemma step_keeps k e o db :
  keys_inv db → map_get k (items db) = Some e →
  match map_get k (items (step o db).2) with
  | Some e1 => prop e1 "createdAt" = prop e "createdAt" ∧ prop e1 "id" = prop e "id"
  | None => True
  end.
Proof.
  intros Hinv Hget. pose proof (keys_inv_below _ _ _ Hinv Hget) as Hb.
  destruct o as [c u data| |id|now id data|id]; simpl; rewrite ?Hget; try done.
  - rewrite map_get_set_ne by (intros <-; simpl in Hb; lia). by rewrite Hget.
  - destruct (map_get (parseInt id) (items db)) as [item|] eqn:Hitem.
    + rewrite (update_found _ _ _ _ _ Hitem). simpl.
      destruct (decide (parseInt id = k)) as [Heq|Hne].
      * rewrite Heq in *. rewrite map_get_set_eq. simplify_eq.
        unfold prop at 1 3. by rewrite updated_item_createdAt, updated_item_id.
      * rewrite map_get_set_ne by done. by rewrite Hget.
    + rewrite update_missing by done. simpl. by rewrite Hget.
  - destruct (decide (parseInt id = k)) as [<-|Hne].
    + by rewrite map_get_remove_eq.
    + rewrite map_get_remove_ne by done. by rewrite Hget.
Qed.

Lemma run_keeps k e e' ops db :
  keys_inv db → map_get k (items db) = Some e →
  map_get k (items (run ops db).2) = Some e' →
  prop e' "createdAt" = prop e "createdAt" ∧ prop e' "id" = prop e "id".
Proof.
  revert db e. induction ops as [|o ops IH]; intros db e Hinv Hget.
  - simpl. rewrite Hget. by intros [= ->].
  - rewrite run_cons. cbn [snd]. intros Hget'.
    pose proof (step_keeps k e o db Hinv Hget) as Hstep.
    destruct (map_get k (items (step o db).2)) as [e1|] eqn:H1.
    + destruct Hstep as [Hc Hi].
      destruct (IH _ e1 (keys_inv_step o db Hinv) H1 Hget') as [Hc' Hi'].
      split; congruence.
    + rewrite run_absent in Hget'; [done| |done].
      apply step_below. by eapply keys_inv_below.
Qed.

(** X8: an entity never changes its [id] or its [createdAt]: when an id
    input finds an entity after a run, and finds one again after the run
    has gone on in any way, the two agree on both fields.  (The key of a
    deleted entity is never given out again, so it is the same entity.) *)
Theorem id_and_createdAt_never_change ops more (id : jsstring) e e' :
  findById id (final ops) = Some e →
  findById id (run more (final ops)).2 = Some e' →
  e' !! "id" = e !! "id" ∧ e' !! "createdAt" = e !! "createdAt".
Proof.
  unfold findById. intros Hget Hget'.
  destruct (run_keeps _ _ _ _ _ (keys_inv_final ops) Hget Hget') as [Hc Hi].
  pose proof (stamps_inv_final ops) as Hs.
  pose proof (stamps_inv_run _ more _ Hs) as Hs'.
  destruct (stamps_inv_get _ _ _ _ Hs Hget) as ([i Hid] & c & u & Hcr & _).
  destruct (stamps_inv_get _ _ _ _ Hs' Hget') as ([i' Hid'] & c' & u' & Hcr' & _).
  rewrite (prop_Some _ _ _ Hid), (prop_Some _ _ _ Hid') in Hi.
  rewrite (prop_Some _ _ _ Hcr), (prop_Some _ _ _ Hcr') in Hc.
  split; congruence.
Qed.

Lemma id_and_createdAt_never_change_witness :
  let ops := [Create 1 2 (payload "A")] in
  let more := [Create 3 4 (payload "B");
               Update 5 (utf16 "1") (<["createdAt" := VTime 0]> (payload_with_id 9 "A2"));
               Delete (utf16 "2")] in
  let e := new_item 1 1 2 (payload "A") in
  let e' := updated_item 5 e (<["createdAt" := VTime 0]> (payload_with_id 9 "A2")) in
  findById (utf16 "1") (final ops) = Some e ∧
  findById (utf16 "1") (run more (final ops)).2 = Some e' ∧
  e' !! "id" = e !! "id" ∧ e' !! "createdAt" = e !! "createdAt".
Proof.
  intros ops more e e'.
  assert (findById (utf16 "1") (final ops) = Some e) as Hget by reflexivity.
  assert (findById (utf16 "1") (run more (final ops)).2 = Some e') as Hget'
    by reflexivity.
  split; [exact Hget|]. split; [exact Hget'|].
  exact (id_and_createdAt_never_change ops more (utf16 "1") e e' Hget Hget').
Defined.

(** ** createdAt and updatedAt under a clock that never goes back *)

Lemma ordered_mono R R' e : R ⊆ R' → ordered R e → ordered R' e.
Proof.
  intros Hsub (c & u & Hc & Hu & HcR & HuR & Hle). exists c, u. split_and!; auto.
Qed.

Lemma ordered_inv_step R o db :
  monotone (R ++ clock_of o) → ordered_inv R db →
  ordered_inv (R ++ clock_of o) (step o db).2.
Proof.
  intros Hmono Hinv.
  assert (ordered_inv (R ++ clock_of o) db) as Hinv'.
  { unfold ordered_inv in *. eapply Forall_impl; [done|]. intros e.
    apply ordered_mono. intros x Hx. apply elem_of_app. by left. }
  unfold ordered_inv in *.
  destruct o as [c u data| |id|now id data|id]; simpl in *; try done.
  - apply Forall_map_set; [done|]. simpl. exists c, u.
    rewrite new_item_createdAt, new_item_updatedAt. split_and!; [done|done| | |].
    + apply elem_of_app. right. apply list_elem_of_here.
    + apply elem_of_app. right. apply list_elem_of_further, list_elem_of_here.
    + apply StronglySorted_app_1_r in Hmono.
      apply StronglySorted_cons in Hmono as [Hall _]. by apply Forall_inv in Hall.
  - destruct (map_get (parseInt id) (items db)) as [item|] eqn:Hget.
    + rewrite (update_found _ _ _ _ _ Hget). simpl. apply Forall_map_set; [done|].
      apply map_get_Some_elem in Hget.
      eapply Forall_forall in Hinv as (c & u & Hc & Hu & HcR & HuR & Hle); [|done].
      simpl in *. exists c, now.
      rewrite updated_item_createdAt, updated_item_updatedAt, (prop_Some _ _ _ Hc).
      split_and!; [done|done| | |].
      * apply elem_of_app. by left.
      * apply elem_of_app. right. apply list_elem_of_here.
      * by eapply monotone_last.
    + by rewrite update_missing.
  - unfold map_remove. apply Forall_forall. intros e He.
    apply list_elem_of_filter in He as [_ He]. by eapply Forall_forall in Hinv'.
Qed.

Lemma ordered_inv_run R ops db :
  monotone (R ++ readings ops) → ordered_inv R db →
  ordered_inv (R ++ readings ops) (run ops db).2.
Proof.
  revert R db. induction ops as [|o ops IH]; intros R db Hmono Hinv.
  - simpl. unfold readings. simpl. by rewrite (right_id_L [] (++)).
  - rewrite run_cons, readings_cons, (assoc_L (++)) in *. cbn [snd].
    apply IH; [done|]. apply ordered_inv_step; [|done].
    by apply StronglySorted_app_1_l in Hmono.
Qed.

(** X9: when the clock never goes back during a run from the empty store,
    every stored entity has a [createdAt] that is at or before its
    [updatedAt]. *)
Theorem createdAt_before_updatedAt ops e :
  monotone (readings ops) →
  e ∈ findAll (final ops) →
  ∃ c u, e !! "createdAt" = Some (VTime c) ∧ e !! "updatedAt" = Some (VTime u) ∧ c ≤ u.
Proof.
  intros Hmono He.
  pose proof (ordered_inv_run [] ops new_Database Hmono) as Hinv.
  unfold findAll, map_values in He. apply list_elem_of_fmap in He as ([k e0] & -> & He).
  unfold ordered_inv in Hinv. eapply Forall_forall in Hinv; [|constructor|exact He].
  destruct Hinv as (c & u & Hc & Hu & _ & _ & Hle). by exists c, u.
Qed.

Lemma createdAt_before_updatedAt_witness :
  let ops := [Create 10 11 (payload "A"); Create 11 11 (payload "B");
              Update 15 (utf16 "1") (payload "A2")] in
  let e := updated_item 15 (new_item 1 10 11 (payload "A")) (payload "A2") in
  monotone (readings ops) ∧
  e ∈ findAll (final ops) ∧
  ∃ c u, e !! "createdAt" = Some (VTime c) ∧ e !! "updatedAt" = Some (VTime u) ∧ c ≤ u.
Proof.
  intros ops e.
  assert (monotone (readings ops)) as Hmono.
  { unfold monotone. simpl. repeat constructor; lia. }
  assert (e ∈ findAll (final ops)) as He by (apply list_elem_of_here).
  split; [exact Hmono|]. split; [exact He|].
  exact (createdAt_before_updatedAt ops e Hmono He).
Defined.

(** ** What create takes from the payload *)

(** X10: in every store, the entity that [create] returns has, under every
    name other than [id], [createdAt] and [updatedAt], exactly what the
    payload has under that name, and nothing where the payload has nothing. *)
Theorem create_copies_payload c u data db k :
  protected k = false →
  (create c u data db).1 !! k = data !! k.
Proof. intros Hk. simpl. by apply new_item_other. Qed.

Lemma create_copies_payload_witness :
  let data := <["description" := VStr "d"]> (payload "A") in
  protected "description" = false ∧
  (create 1 2 data new_Database).1 !! "description" = data !! "description".
Proof.
  intros data.
  assert (protected "description" = false) as Hk by reflexivity.
  split; [exact Hk|].
  exact (create_copies_payload 1 2 data new_Database "description" Hk).
Defined.

(** ** findAll against findById *)

(** X11: after any run from the empty store, [findAll] lists exactly the
    entities that [findById] can give: each listed entity is found under the
    decimal numeral of its key, and each entity found is listed. *)
Theorem findAll_findById ops e :
  e ∈ findAll (final ops) ↔ ∃ id : jsstring, findById id (final ops) = Some e.
Proof.
  unfold findAll, map_values, findById. split.
  - intros ([k e0] & -> & He)%list_elem_of_fmap. simpl.
    destruct (final_keys_range _ _ _ He) as (n & -> & Hn).
    exists (decimal n). rewrite parseInt_decimal by lia.
    apply map_elem_get; [|done]. apply keys_inv_NoDup, keys_inv_final.
  - intros (id & Hget). apply map_get_Some_elem in Hget.
    apply list_elem_of_fmap. by eexists (_, _).
Qed.

(** ** How findById reads an id *)

Lemma parseInt_white_spaces ws s :
  Forall (fun w => is_white_space w = true) ws → parseInt (ws ++ s) = parseInt s.
Proof.
  induction 1 as [|w ws Hw _ IH]; [done|]. simpl.
  by rewrite parseInt_white_space.
Qed.

(** X12: in every store, [findById] takes an id input for the integer its
    numeral stands for, for every integer from 1 that a Number holds
    exactly, even when white space comes before the numeral and text that
    does not start with a digit comes after it. *)
Theorem findById_reads_numeral ws n rest db :
  Forall (fun w => is_white_space w = true) ws →
  1 ≤ n < 2 ^ 53 →
  no_digit_ahead rest →
  findById (ws ++ decimal n ++ rest) db = findById (decimal n) db ∧
  findById (decimal n) db = map_get (Int n) (items db).
Proof.
  intros Hws Hn Hrest. unfold findById.
  rewrite parseInt_white_spaces by done.
  rewrite parseInt_decimal_lax by first [lia | done].
  by rewrite parseInt_decimal by lia.
Qed.

Lemma findById_reads_numeral_witness :
  let db := final [Create 1 1 (payload "A")] in
  Forall (fun w => is_white_space w = true) [32%N; 9%N] ∧
  1 ≤ 1 < 2 ^ 53 ∧
  no_digit_ahead (utf16 "abc") ∧
  findById ([32%N; 9%N] ++ decimal 1 ++ utf16 "abc") db = findById (decimal 1) db ∧
  findById (decimal 1) db = map_get (Int 1) (items db).
Proof.
  intros db.
  assert (Forall (fun w => is_white_space w = true) [32%N; 9%N]) as Hws
    by (repeat constructor).
  assert (1 ≤ 1 < 2 ^ 53) as Hn by lia.
  assert (no_digit_ahead (utf16 "abc")) as Hc by reflexivity.
  split; [exact Hws|]. split; [exact Hn|]. split; [exact Hc|].
  exact (findById_reads_numeral [32%N; 9%N] 1 (utf16 "abc") db Hws Hn Hc).
Defined.

(** ** The routes over the store *)

Lemma serve_step r db :
  serve r db = (reply_of (step (op_of r) db).1, (step (op_of r) db).2).
Proof.
  destruct r as [|id|c u body|now id body|id]; simpl; try done.
  - unfold get_item. by destruct (findById id db).
  - unfold put_item. by destruct (update now id body db) as [[item|] db'].
  - unfold delete_item, delete, map_delete. simpl.
    by destruct (map_has (parseInt id) (items db)).
Qed.

Lemma serve_all_cons r rs db :
  serve_all (r :: rs) db =
    ((serve r db).1 :: (serve_all rs (serve r db).2).1, (serve_all rs (serve r db).2).2).
Proof. simpl. destruct (serve r db), (serve_all rs _). done. Qed.

Lemma serve_all_run rs db :
  serve_all rs db = (reply_of <$> (run (op_of <$> rs) db).1, (run (op_of <$> rs) db).2).
Proof.
  revert db. induction rs as [|r rs IH]; intros db; [done|].
  rewrite serve_all_cons, fmap_cons, run_cons, serve_step. cbn [fst snd].
  by rewrite IH.
Qed.

Lemma code_201 o db :
  bool_decide (code (reply_of (step o db).1) = Some 201) = is_create o.
Proof.
  destruct o as [c u data| |id|now id data|id]; simpl; try done.
  - by destruct (findById id db).
  - by destruct (update now id data db) as [[item|] db'].
  - by destruct (map_has (parseInt id) (items db)).
Qed.

Lemma code_204 x : bool_decide (code (reply_of x) = Some 204) = is_removal x.
Proof. by destruct x as [item|all|[item|]|[item|]|[|]]. Qed.

Lemma with_code_201 ops db :
  with_code 201 (reply_of <$> (run ops db).1) = creates ops.
Proof.
  revert db. induction ops as [|o ops IH]; intros db; [done|].
  rewrite run_cons. cbn [fst]. rewrite fmap_cons.
  unfold with_code, creates in *. cbn [List.filter]. rewrite code_201.
  destruct (is_create o); simpl; by rewrite IH.
Qed.

Lemma with_code_204 xs : with_code 204 (reply_of <$> xs) = removals xs.
Proof.
  induction xs as [|x xs IH]; [done|]. rewrite fmap_cons.
  unfold with_code, removals in *. cbn [List.filter]. rewrite code_204.
  destruct (is_removal x); simpl; by rewrite IH.
Qed.

(** X13: in every store, the three routes that take an id answer 404 for
    the same id inputs, those for which [findById] finds nothing. *)
Theorem id_routes_agree (id : jsstring) now body db :
  (code (get_item id db).1 = Some 404 ↔ findById id db = None) ∧
  (code (put_item now id body db).1 = Some 404 ↔ findById id db = None) ∧
  (code (delete_item id db).1 = Some 404 ↔ findById id db = None).
Proof.
  unfold get_item, put_item, delete_item, delete, map_delete, findById.
  split_and!.
  - by destruct (map_get (parseInt id) (items db)).
  - destruct (map_get (parseInt id) (items db)) as [item|] eqn:Hget.
    + by rewrite (update_found _ _ _ _ _ Hget).
    + by rewrite (update_missing _ _ _ _ Hget).
  - destruct (map_has (parseInt id) (items db)) eqn:Hhas; simpl.
    + apply map_has_true in Hhas as [item ->]. done.
    + by apply map_has_false in Hhas as ->.
Qed.

(** X14: in every store, a request that is answered 404 leaves the store as
    it was. *)
Theorem not_found_leaves_store r db :
  code (serve r db).1 = Some 404 → (serve r db).2 = db.
Proof.
  destruct r as [|id|c u body|now id body|id]; simpl; try done.
  - unfold get_item. by destruct (findById id db).
  - unfold put_item. destruct (map_get (parseInt id) (items db)) as [item|] eqn:Hget.
    + by rewrite (update_found _ _ _ _ _ Hget).
    + by rewrite (update_missing _ _ _ _ Hget).
  - unfold delete_item, delete, map_delete. simpl.
    destruct (map_has (parseInt id) (items db)) eqn:Hhas; [done|]. simpl. intros _.
    apply map_has_false in Hhas. rewrite map_remove_absent by done. by destruct db.
Qed.

Lemma not_found_leaves_store_witness :
  let db := (serve_all [POST_items 1 1 (payload "A")] new_Database).2 in
  let r := PUT_item 2 (utf16 "7") (payload "B") in
  code (serve r db).1 = Some 404 ∧ (serve r db).2 = db.
Proof.
  intros db r.
  assert (code (serve r db).1 = Some 404) as H404 by reflexivity.
  split; [exact H404|]. exact (not_found_leaves_store r db H404).
Defined.

(** X15: after any sequence of requests that reached their handlers on the
    empty store, a [POST] whose body the schema of the route accepts and
    which has no [id] of its own is answered 201 with an entity that carries
    an integer [id] and the [name] of the body, and a [GET] on the decimal
    numeral of that [id] is answered with the same entity. *)
Theorem post_then_get rs c u body :
  Forall (fun r => accepted r = true) rs →
  post_schema body = true →
  body !! "id" = None →
  let db := (serve_all rs new_Database).2 in
  ∃ n item,
    (post_item c u body db).1 = mkReply (Some 201) (SendItem item) ∧
    item !! "id" = Some (VNum n) ∧
    item !! "name" = body !! "name" ∧
    get_item (decimal n) (post_item c u body db).2
      = (mkReply None (SendItem item), (post_item c u body db).2).
Proof.
  intros _ _ Hbody db. unfold db. rewrite serve_all_run. cbn [snd].
  fold (final (op_of <$> rs)). set (ops := op_of <$> rs).
  exists (currentId (final ops)), (create c u body (final ops)).1.
  split; [done|]. split_and!.
  - simpl. by rewrite new_item_id, Hbody.
  - simpl. by apply new_item_other.
  - pose proof (create_findById_decimal ops c u body) as Hfind.
    unfold get_item, post_item.
    change (let '(item, db') := create c u body (final ops) in
            (mkReply (Some 201) (SendItem item), db')).2
      with (create c u body (final ops)).2.
    by rewrite Hfind.
Qed.

Lemma post_then_get_witness :
  let rs := [POST_items 1 1 (payload "A"); DELETE_item (utf16 "1")] in
  let body := payload "B" in
  Forall (fun r => accepted r = true) rs ∧
  post_schema body = true ∧
  body !! "id" = None ∧
  let db := (serve_all rs new_Database).2 in
  ∃ n item,
    (post_item 5 5 body db).1 = mkReply (Some 201) (SendItem item) ∧
    item !! "id" = Some (VNum n) ∧
    item !! "name" = body !! "name" ∧
    get_item (decimal n) (post_item 5 5 body db).2
      = (mkReply None (SendItem item), (post_item 5 5 body db).2).
Proof.
  intros rs body.
  assert (Forall (fun r => accepted r = true) rs) as Hrs by (repeat constructor).
  assert (post_schema body = true) as Hschema by reflexivity.
  assert (body !! "id" = None) as Hbody by reflexivity.
  split; [exact Hrs|]. split; [exact Hschema|]. split; [exact Hbody|].
  exact (post_then_get rs 5 5 body Hrs Hschema Hbody).
Defined.

(** X16: in every store, once a [DELETE] on an id has been served, a [GET],
    a [PUT] and a further [DELETE] on that id are all answered 404 and leave
    the store as it is. *)
Theorem delete_item_then (id : jsstring) now body db :
  let db' := (delete_item id db).2 in
  get_item id db' = (not_found, db') ∧
  put_item now id body db' = (not_found, db') ∧
  delete_item id db' = (not_found, db').
Proof.
  intros db'.
  assert (db' = (delete id db).2) as Hdb'.
  { unfold db', delete_item, delete, map_delete. simpl.
    by destruct (map_has (parseInt id) (items db)). }
  assert (findById id db' = None) as Hnone.
  { rewrite Hdb'. unfold findById, delete, map_delete; simpl; apply map_get_remove_eq. }
  split_and!.
  - unfold get_item. by rewrite Hnone.
  - unfold put_item. by rewrite update_missing.
  - unfold delete_item. rewrite Hdb', delete_again. done.
Qed.

(** X17: after any sequence of requests on the empty store, [GET /items]
    answers with all stored entities and their number, and that number is
    the number of replies 201 so far less the number of replies 204. *)
Theorem get_items_count rs :
  let xs := (serve_all rs new_Database).1 in
  let db := (serve_all rs new_Database).2 in
  (with_code 204 xs ≤ with_code 201 xs)%nat ∧
  get_items db =
    (mkReply None (SendItems (findAll db) (with_code 201 xs - with_code 204 xs)), db).
Proof.
  intros xs db. unfold xs, db. rewrite serve_all_run. cbn [fst snd].
  rewrite with_code_201, with_code_204.
  pose proof (run_size (op_of <$> rs) new_Database keys_inv_new) as Hsize.
  simpl in Hsize. split; [lia|]. unfold get_items, findAll, map_values.
  rewrite length_fmap. do 3 f_equal. lia.
Qed.

(** X18: in every store, the status a handler sets tells what happened:
    404 goes with the error [Item not found], an id for which [findById]
    finds nothing and an unchanged store; 204 with an empty reply to a
    [DELETE] of an entity that was stored and is gone afterwards; 201 with
    a [POST] whose reply is the entity [create] returned, the store being
    the one [create] left; a reply that leaves the status alone carries the
    entity found by a [GET], the entity [update] returned to a [PUT], or
    the list of all entities with its length; no other status is set. *)
Theorem reply_shapes r db :
  match code (serve r db).1, sent (serve r db).1 with
  | Some 404, SendError msg =>
      msg = "Item not found" ∧ (serve r db).2 = db ∧
      ∃ id, findById id db = None ∧
            (r = GET_item id ∨ (∃ now body, r = PUT_item now id body) ∨ r = DELETE_item id)
  | Some 204, SendNothing =>
      ∃ id, r = DELETE_item id ∧ is_Some (findById id db) ∧
            (serve r db).2 = (delete id db).2 ∧
            findById id (serve r db).2 = None
  | Some 201, SendItem item =>
      ∃ c u body, r = POST_items c u body ∧
                  create c u body db = (item, (serve r db).2)
  | None, SendItem item =>
      (∃ id, r = GET_item id ∧ findById id db = Some item ∧ (serve r db).2 = db) ∨
      (∃ now id body, r = PUT_item now id body ∧
                      update now id body db = (Some item, (serve r db).2))
  | None, SendItems all count =>
      r = GET_items ∧ all = findAll db ∧ count = length all ∧ (serve r db).2 = db
  | _, _ => False
  end.
Proof.
  destruct r as [|id|c u body|now id body|id]; simpl.
  - done.
  - unfold get_item. destruct (findById id db) as [item|] eqn:Hget; simpl.
    + left. by exists id.
    + split_and!; [done..|]. exists id. split; [done|]. by left.
  - by exists c, u, body.
  - unfold put_item. destruct (map_get (parseInt id) (items db)) as [item|] eqn:Hget.
    + rewrite (update_found _ _ _ _ _ Hget). simpl. right. exists now, id, body.
      split; [done|]. by apply update_found.
    + rewrite (update_missing _ _ _ _ Hget). simpl.
      split_and!; [done..|]. exists id. split; [done|]. right. left. eauto.
  - unfold delete_item, delete, map_delete. simpl.
    destruct (map_has (parseInt id) (items db)) eqn:Hhas; simpl.
    + exists id. split_and!; [done| |done|].
      * by apply map_has_true.
      * unfold findById. simpl. apply map_get_remove_eq.
    + apply map_has_false in Hhas. split_and!; [done| |].
      * rewrite map_remove_absent by done. by destruct db.
      * exists id. split; [done|]. right. by right.
Qed.

(** ** What the other operations leave alone *)

Lemma step_untouched k e o db :
  keys_inv db → map_get k (items db) = Some e → touches k o = false →
  map_get k (items (step o db).2) = Some e.
Proof.
  intros Hinv Hget Ht. pose proof (keys_inv_below _ _ _ Hinv Hget) as Hb.
  destruct o as [c u data| |id|now id data|id]; simpl in *; try done.
  - rewrite map_get_set_ne by (intros <-; simpl in Hb; lia). done.
  - apply bool_decide_eq_false in Ht.
    destruct (map_get (parseInt id) (items db)) as [item|] eqn:Hitem.
    + rewrite (update_found _ _ _ _ _ Hitem). simpl.
      by rewrite map_get_set_ne.
    + by rewrite update_missing.
  - apply bool_decide_eq_false in Ht. by rewrite map_get_remove_ne.
Qed.

(** X19: an entity changes only through an [update] or a [delete] of its
    own id: when an id input finds an entity after a run and the run goes
    on with operations none of which is an [update] or a [delete] whose id
    parses to the same integer, the id input finds the very same entity
    afterwards, however many entities were created, updated or deleted
    around it. *)
Theorem untouched_entity_stays ops more (id : jsstring) e :
  findById id (final ops) = Some e →
  Forall (fun o => touches (parseInt id) o = false) more →
  findById id (run more (final ops)).2 = Some e.
Proof.
  unfold findById. generalize (keys_inv_final ops). generalize (final ops).
  induction more as [|o more IH]; intros db Hinv Hget Hall; [done|].
  apply Forall_cons in Hall as [Ho Hall]. rewrite run_cons. cbn [snd].
  apply IH; [by apply keys_inv_step| |done]. by apply step_untouched.
Qed.

Lemma untouched_entity_stays_witness :
  let ops := [Create 1 1 (payload "A"); Create 2 2 (payload "B")] in
  let more := [Create 3 3 (payload "C"); Update 4 (utf16 "2") (payload "B2");
               Delete (utf16 "3"); Delete (utf16 "x"); FindAll] in
  let e := new_item 1 1 1 (payload "A") in
  findById (utf16 "1") (final ops) = Some e ∧
  Forall (fun o => touches (parseInt (utf16 "1")) o = false) more ∧
  findById (utf16 "1") (run more (final ops)).2 = Some e.
Proof.
  intros ops more e.
  assert (findById (utf16 "1") (final ops) = Some e) as Hget by reflexivity.
  assert (Forall (fun o => touches (parseInt (utf16 "1")) o = false) more) as Hall
    by (repeat constructor).
  split; [exact Hget|]. split; [exact Hall|].
  exact (untouched_entity_stays ops more (utf16 "1") e Hget Hall).
Defined.

(** ** findById and the coercion of its input *)

(** The route reads ids laxly: a numeral followed by text, a fraction and a
    hexadecimal numeral all find entities. *)
Example findById_lax_inputs :
  let db := final [Create 1 1 (payload "A"); Create 2 2 (payload "B")] in
  findById (utf16 "1abc") db = Some (new_item 1 1 1 (payload "A")) ∧
  findById (utf16 "2.7") db = Some (new_item 2 2 2 (payload "B")) ∧
  findById (utf16 "0x2") db = Some (new_item 2 2 2 (payload "B")) ∧
  findById (utf16 "abc") db = None ∧
  findById (utf16 "0x") db = None.
Proof. repeat split; reflexivity. Qed.

(** C6: after any run, [findById(id)] coerces the input with [parseInt] and
    reads the [Map] at the integer it gets.  An input that does not parse
    (after white space and sign it starts with no numeral) gets the
    not-found value, and no error; an input that parses stands for an
    integer, and [findById] returns the entity stored under exactly that
    integer when there is one and the not-found value otherwise; and every
    stored entity is found through the decimal numeral of the counter value
    it is stored under, also with white space before the numeral and text
    that does not start with a digit after it. *)
Theorem findById_lookup ops (id : jsstring) :
  let db := final ops in
  (parsable id = false → parseInt id = NaN ∧ findById id db = None) ∧
  (parsable id = true →
     ∃ n, parseInt id = Int n ∧
          (∀ e, findById id db = Some e ↔ (Int n, e) ∈ items db) ∧
          (findById id db = None ↔ Int n ∉ map_keys (items db))) ∧
  (∀ n e ws rest,
     (Int n, e) ∈ items db →
     Forall (fun w => is_white_space w = true) ws →
     no_digit_ahead rest →
     findById (ws ++ decimal n ++ rest) db = Some e).
Proof.
  intros db. pose proof (keys_inv_final ops) as Hinv. fold db in Hinv.
  unfold findById. split_and!.
  - intros Hp%parseInt_NaN. split; [done|]. rewrite Hp.
    by apply keys_inv_no_NaN.
  - intros (n & Hn)%parseInt_Int. exists n. rewrite Hn.
    split_and!; [done| |apply map_get_None].
    intros e. split; [apply map_get_Some_elem|].
    by apply map_elem_get, keys_inv_NoDup.
  - intros n e ws rest Hin Hws Hrest.
    destruct (final_keys_range _ _ _ Hin) as (n' & [= <-] & Hn).
    rewrite parseInt_white_spaces, parseInt_decimal_lax by first [lia | done].
    by apply map_elem_get; [apply keys_inv_NoDup|].
Qed.
